(** * portfolio-v2: the blog renderer, the blog data helpers and the
    structured-data builders

  A shallow embedding of
    - [src/app/blog/[slug]/page.tsx]   (renderContent, BlogPostPage,
                                        generateMetadata),
    - [src/unnamed/part_001]           (the second copy of the renderer),
    - [src/lib/blog-data.ts]           (blogPosts and its helpers),
    - [src/lib/structured-data.ts]     (JSON-LD builders and seo-config).

  JavaScript strings are sequences of UTF-16 code units; they are modelled
  as lists of code units ([N]), so that [String.prototype] functions that
  work on code units (startsWith, replace, split, trim, regular expressions
  without the [u] flag) are modelled at the granularity the engine uses. *)

From Stdlib Require Import Ascii String.
From Stdlib Require Import List NArith ZArith Bool Arith Lia.
From Stdlib Require Import Permutation Sorted DecimalString.

Set Warnings "-register-all".
Import ListNotations.

(* ===================================================================== *)
(** ** JavaScript strings                                                 *)
(* ===================================================================== *)

Module JS.

(** A UTF-16 code unit. *)
Definition char := N.
Definition str := list char.

(** A source literal (ASCII only). *)
Definition lit (s : string) : str :=
  map N_of_ascii (list_ascii_of_string s).
Arguments lit s%_string.

Definition AMP : char := 38%N.       (* & *)
Definition LT : char := 60%N.        (* < *)
Definition GT : char := 62%N.        (* > *)
Definition QUOT : char := 34%N.      (* double quote *)
Definition APOS : char := 39%N.      (* ' *)
Definition STAR : char := 42%N.      (* * *)
Definition BACKTICK : char := 96%N.  (* ` *)
Definition LF : char := 10%N.        (* \n *)

(** [a === b] on strings. *)
Fixpoint str_eqb (a b : str) : bool :=
  match a, b with
  | [], [] => true
  | x :: a', y :: b' => N.eqb x y && str_eqb a' b'
  | _, _ => false
  end.

(** ECMAScript WhiteSpace and LineTerminator code points: what
    [String.prototype.trim] strips. *)
Definition isWhiteSpace (c : char) : bool :=
  (N.leb 9 c && N.leb c 13) || N.eqb c 32 || N.eqb c 160 ||
  N.eqb c 5760 || (N.leb 8192 c && N.leb c 8202) ||
  N.eqb c 8232 || N.eqb c 8233 || N.eqb c 8239 || N.eqb c 8287 ||
  N.eqb c 12288 || N.eqb c 65279.

(** ECMAScript LineTerminator: what [.] in a regular expression (without
    the [s] flag) does not match. *)
Definition isLineTerminator (c : char) : bool :=
  N.eqb c 10 || N.eqb c 13 || N.eqb c 8232 || N.eqb c 8233.

Fixpoint dropWhile (f : char -> bool) (s : str) : str :=
  match s with
  | [] => []
  | c :: s' => if f c then dropWhile f s' else s
  end.

Definition trimStart (s : str) : str := dropWhile isWhiteSpace s.
Definition trimEnd (s : str) : str := rev (dropWhile isWhiteSpace (rev s)).
(** [s.trim()] *)
Definition trim (s : str) : str := trimEnd (trimStart s).

(** [Some rest] when [s = pat ++ rest]. *)
Fixpoint stripPrefix (pat s : str) : option str :=
  match pat, s with
  | [], _ => Some s
  | p :: pat', c :: s' => if N.eqb p c then stripPrefix pat' s' else None
  | _ :: _, [] => None
  end.

(** [s.startsWith(pat)] *)
Definition startsWith (s pat : str) : bool :=
  match stripPrefix pat s with Some _ => true | None => false end.

(** [s.replace(pat, rep)] for a string pattern [pat] and a replacement
    [rep] without [$]: the first occurrence of [pat] is replaced. *)
Fixpoint replace (pat rep s : str) : str :=
  match stripPrefix pat s with
  | Some rest => rep ++ rest
  | None => match s with
            | [] => []
            | c :: s' => c :: replace pat rep s'
            end
  end.

(** [s.replace(/c/g, rep)] for a one-character pattern and a replacement
    without [$]. *)
Definition replaceChar (c : char) (rep : str) (s : str) : str :=
  flat_map (fun x => if N.eqb x c then rep else [x]) s.

(** [s.split(sep)] for a one-character separator. *)
Fixpoint split (sep : char) (s : str) : list str :=
  match s with
  | [] => [[]]
  | c :: s' =>
      if N.eqb c sep then [] :: split sep s'
      else match split sep s' with
           | l :: ls => (c :: l) :: ls
           | [] => [[c]]
           end
  end.

(** [l.join(sep)] *)
Fixpoint join (sep : str) (l : list str) : str :=
  match l with
  | [] => []
  | [x] => x
  | x :: l' => x ++ sep ++ join sep l'
  end.

(** *** Regular expressions of the form [/D(.+?)D/g]

    [D] is a literal delimiter ([\*\*] or a backtick). *)

(** The lazy group followed by the closing delimiter, matched at the head
    of [s]: the shortest non-empty run of non-line-terminators that is
    followed by [delim]. Returns the group and what follows the match. *)
Fixpoint lazyGroup (delim s : str) : option (str * str) :=
  match s with
  | [] => None
  | c :: s' =>
      if isLineTerminator c then None
      else match stripPrefix delim s' with
           | Some rest => Some ([c], rest)
           | None => match lazyGroup delim s' with
                     | Some (g, rest) => Some (c :: g, rest)
                     | None => None
                     end
           end
  end.

(** One attempt of [/D(.+?)D/] at the head of [s]. *)
Definition matchHere (delim s : str) : option (str * str) :=
  match stripPrefix delim s with
  | Some s1 => lazyGroup delim s1
  | None => None
  end.

(** [RegExp.prototype.exec] from the head of [s]: the leftmost match.
    Returns the text before the match, group 1 and the text after it. *)
Fixpoint exec (delim s : str) : option (str * str * str) :=
  match matchHere delim s with
  | Some (g, rest) => Some ([], g, rest)
  | None => match s with
            | [] => None
            | c :: s' => match exec delim s' with
                         | Some (pre, g, rest) => Some (c :: pre, g, rest)
                         | None => None
                         end
            end
  end.

(** [s.replace(/D(.+?)D/g, "open$1close")]: every match, left to right,
    each search resuming where the previous match ended. The loop runs at
    most once per code unit of [s]; [n] bounds it. *)
Fixpoint replaceGroup_loop (n : nat) (delim open close s : str) : str :=
  match n with
  | O => s
  | S n' =>
      match exec delim s with
      | None => s
      | Some (pre, g, rest) =>
          pre ++ open ++ g ++ close ++
          replaceGroup_loop n' delim open close rest
      end
  end.

Definition replaceGroup (delim open close s : str) : str :=
  replaceGroup_loop (S (length s)) delim open close s.

End JS.
Import JS.

(* ===================================================================== *)
(** ** src/lib/blog-data.ts                                               *)
(* ===================================================================== *)

Module BlogData.

Record BlogPost : Type := mkPost {
  slug : str;
  title : str;
  description : str;
  content : str;
  author : str;
  date : str;
  readTime : str;
  tags : list str;
  image : option str;        (* image?: string *)
  keywords : list str
}.

(** *** [new Date(s).getTime()]

    The date-only form [YYYY-MM-DD] of the ECMAScript date-time string
    format, read as UTC midnight. [None] is NaN. Strings outside that form
    are left to implementation-specific heuristics by the language and are
    not modelled: they are [None] here, and the theorems below that depend
    on a time value ask for [getTime] to be defined. *)

Definition digit (c : char) : option Z :=
  if N.leb 48 c && N.leb c 57 then Some (Z.of_N c - 48)%Z else None.

Definition isLeapYear (y : Z) : bool :=
  ((y mod 4 =? 0) && (negb (y mod 100 =? 0) || (y mod 400 =? 0)))%Z.

Definition daysInMonth (y m : Z) : Z :=
  (if m =? 2 then (if isLeapYear y then 29 else 28)
   else if (m =? 4) || (m =? 6) || (m =? 9) || (m =? 11) then 30
   else 31)%Z.

(** DayFromYear of the language specification. *)
Definition DayFromYear (y : Z) : Z :=
  (365 * (y - 1970) + (y - 1969) / 4 - (y - 1901) / 100 + (y - 1601) / 400)%Z.

(** Days of the year [y] before the first of month [m]. *)
Definition daysBeforeMonth (y m : Z) : Z :=
  fold_left (fun acc k => (acc + daysInMonth y k)%Z)
            (map Z.of_nat (seq 1 (Z.to_nat (m - 1)))) 0%Z.

Definition msPerDay : Z := 86400000%Z.

Definition getTime (s : str) : option Z :=
  match map digit s with
  | [Some y1; Some y2; Some y3; Some y4; None;
     Some m1; Some m2; None; Some d1; Some d2] =>
      let y := (1000 * y1 + 100 * y2 + 10 * y3 + y4)%Z in
      let m := (10 * m1 + m2)%Z in
      let d := (10 * d1 + d2)%Z in
      if (nth 4 s 0 =? 45)%N && (nth 7 s 0 =? 45)%N &&
         (1 <=? m)%Z && (m <=? 12)%Z && (1 <=? d)%Z && (d <=? daysInMonth y m)%Z
      then Some ((DayFromYear y + daysBeforeMonth y m + (d - 1)) * msPerDay)%Z
      else None
  | _ => None
  end.

(** *** [Array.prototype.sort]

    [comparefn a b] is [None] when the callback returns NaN, which the sort
    reads as [+0]. The language asks for a stable sort and leaves the
    algorithm open; for a comparator that is a consistent ordering every
    stable sort returns the same array, and insertion is used here. *)
Section ArraySort.
Variable A : Type.
Variable comparefn : A -> A -> option Z.

Definition sortCompare (x y : A) : Z :=
  match comparefn x y with Some v => v | None => 0%Z end.

Fixpoint insertSorted (x : A) (l : list A) : list A :=
  match l with
  | [] => [x]
  | y :: l' => if (sortCompare x y <=? 0)%Z then x :: l
               else y :: insertSorted x l'
  end.

Fixpoint sort (l : list A) : list A :=
  match l with
  | [] => []
  | x :: l' => insertSorted x (sort l')
  end.
End ArraySort.
Arguments sortCompare {A} comparefn x y.
Arguments insertSorted {A} comparefn x l.
Arguments sort {A} comparefn l.

(** [a < b] on strings: code units, lexicographically. *)
Fixpoint str_ltb (a b : str) : bool :=
  match a, b with
  | _, [] => false
  | [], _ :: _ => true
  | x :: a', y :: b' => N.ltb x y || (N.eqb x y && str_ltb a' b')
  end.

(** The default comparator of [sort()] on strings. *)
Definition defaultCompare (a b : str) : option Z :=
  Some (if str_ltb a b then (-1)%Z else if str_ltb b a then 1%Z else 0%Z).

(** [Set.prototype.add] on a [Set<string>], kept in insertion order. *)
Definition setAdd (set : list str) (value : str) : list str :=
  if existsb (str_eqb value) set then set else set ++ [value].

(** The contents of the module-level array [blogPosts]. The helpers are
    functions of the array as it is when they are called and return their
    result together with the array as they leave it. *)
Definition Store : Type := list BlogPost.

(** [(a, b) => new Date(b.date).getTime() - new Date(a.date).getTime()] *)
Definition byDateDesc (a b : BlogPost) : option Z :=
  match getTime (date b), getTime (date a) with
  | Some tb, Some ta => Some (tb - ta)%Z
  | _, _ => None
  end.

(** [blogPosts.sort(...)] sorts the array itself and returns it. *)
Definition getAllPosts (blogPosts : Store) : list BlogPost * Store :=
  let sorted := sort byDateDesc blogPosts in (sorted, sorted).

Definition getPostBySlug (blogPosts : Store) (slug : str)
  : option BlogPost * Store :=
  (find (fun post => str_eqb (BlogData.slug post) slug) blogPosts, blogPosts).

Section WithLowerCase.
(** [String.prototype.toLowerCase]: the case mapping of the engine's
    Unicode tables. *)
Variable toLowerCase : str -> str.

Definition getPostsByTag (blogPosts : Store) (tag : str)
  : list BlogPost * Store :=
  (filter (fun post =>
             existsb (fun t => str_eqb (toLowerCase t) (toLowerCase tag))
                     (tags post))
          blogPosts,
   blogPosts).
End WithLowerCase.

Definition getAllTags (blogPosts : Store) : list str * Store :=
  let tags :=
    fold_left (fun set post => fold_left setAdd (BlogData.tags post) set)
              blogPosts [] in
  (sort defaultCompare tags, blogPosts).

(** [toLowerCase] on strings of ASCII letters, digits and punctuation. *)
Definition asciiLowerCase (s : str) : str :=
  map (fun c => if N.leb 65 c && N.leb c 90 then (c + 32)%N else c) s.

(** *** The array literal

    The [content] template literals (some two thousand lines of article
    text) are not reproduced: [contentOf i] stands for the content of the
    post at position [i] of the literal. *)
Section Literal.
Variable contentOf : nat -> str.

Definition blogPosts : Store :=
  [ mkPost
      (lit "building-modern-portfolio-website-nextjs")
      (lit "Building a Modern Portfolio Website with Next.js - Debmalya Biswas")
      (lit "Learn how Debmalya Biswas built a high-performance portfolio website using Next.js, React, and modern frontend technologies. A complete guide for frontend developers.")
      (contentOf 0)
      (lit "Debmalya Biswas")
      (lit "2024-12-01")
      (lit "8 min read")
      [lit "Next.js"; lit "React"; lit "Portfolio"; lit "Frontend Development"]
      (Some (lit "/assets/blog/modern-portfolio.svg"))
      [lit "Debmalya Biswas"; lit "Debmalya Biswas portfolio";
       lit "Debmalya Biswas frontend"; lit "portfolio website";
       lit "Next.js portfolio"];
    mkPost
      (lit "mastering-react-hooks-frontend-development")
      (lit "Mastering React Hooks: Advanced Patterns for Frontend Developers")
      (lit "Debmalya Biswas shares advanced React Hooks patterns and best practices for building scalable frontend applications. Essential reading for React developers.")
      (contentOf 1)
      (lit "Debmalya Biswas")
      (lit "2024-11-28")
      (lit "10 min read")
      [lit "React"; lit "Hooks"; lit "JavaScript"; lit "Frontend"]
      (Some (lit "/assets/blog/react-hooks.svg"))
      [lit "Debmalya Biswas"; lit "Debmalya frontend"; lit "React hooks";
       lit "frontend development"; lit "Debmalya SDE"];
    mkPost
      (lit "nextjs-14-app-router-complete-guide")
      (lit "Next.js 14 App Router: Complete Guide by Debmalya Biswas")
      (lit "Comprehensive guide to Next.js 14 App Router by frontend developer Debmalya Biswas. Learn server components, routing, and advanced patterns.")
      (contentOf 2)
      (lit "Debmalya Biswas")
      (lit "2024-11-25")
      (lit "12 min read")
      [lit "Next.js"; lit "React"; lit "App Router"; lit "Server Components"]
      (Some (lit "/assets/blog/nextjs-router.svg"))
      [lit "Debmalya Biswas"; lit "Next.js tutorial"; lit "Debmalya frontend";
       lit "Debmalya Biswas website"];
    mkPost
      (lit "typescript-best-practices-react-developers")
      (lit "TypeScript Best Practices for React Developers - Debmalya Biswas")
      (lit "Learn TypeScript best practices for React from Debmalya Biswas, frontend developer. Essential patterns for type-safe React applications.")
      (contentOf 3)
      (lit "Debmalya Biswas")
      (lit "2024-11-22")
      (lit "9 min read")
      [lit "TypeScript"; lit "React"; lit "JavaScript"; lit "Best Practices"]
      (Some (lit "/assets/blog/typescript-best-practices.svg"))
      [lit "Debmalya Biswas"; lit "TypeScript React"; lit "Debmalya frontend";
       lit "Debmalya SDE"];
    mkPost
      (lit "web-performance-optimization-guide")
      (lit "Web Performance Optimization: A Frontend Developer's Guide")
      (lit "Debmalya Biswas shares comprehensive web performance optimization techniques for frontend developers. Learn to build lightning-fast websites.")
      (contentOf 4)
      (lit "Debmalya Biswas")
      (lit "2024-11-20")
      (lit "11 min read")
      [lit "Performance"; lit "Web Development"; lit "Frontend";
       lit "Optimization"]
      (Some (lit "/assets/blog/web-performance.svg"))
      [lit "Debmalya Biswas"; lit "web performance"; lit "Debmalya frontend";
       lit "Debmalya Biswas portfolio"];
    mkPost
      (lit "frontend-development-career-guide-2024")
      (lit "Frontend Development Career Guide 2024 - Debmalya Biswas")
      (lit "Complete career guide for aspiring frontend developers by Debmalya Biswas. Learn the skills, tools, and strategies to become a successful frontend SDE.")
      (contentOf 5)
      (lit "Debmalya Biswas")
      (lit "2024-11-18")
      (lit "10 min read")
      [lit "Career"; lit "Frontend Development"; lit "Learning"; lit "Guide"]
      (Some (lit "/assets/blog/career-guide.svg"))
      [lit "Debmalya Biswas"; lit "frontend developer"; lit "Debmalya SDE";
       lit "frontend career"; lit "Debmalya Biswas portfolio"];
    mkPost
      (lit "react-performance-optimization-techniques")
      (lit "React Performance Optimization Techniques by Debmalya Biswas")
      (lit "Master React performance optimization with Debmalya Biswas. Learn advanced techniques to build lightning-fast React applications.")
      (contentOf 6)
      (lit "Debmalya Biswas")
      (lit "2024-11-15")
      (lit "10 min read")
      [lit "React"; lit "Performance"; lit "Optimization"; lit "Frontend"]
      (Some (lit "/assets/blog/react-performance.svg"))
      [lit "Debmalya Biswas"; lit "React performance"; lit "Debmalya frontend";
       lit "Debmalya SDE"] ].
End Literal.

End BlogData.
Import BlogData.

(* ===================================================================== *)
(** ** The blog-post renderer                                             *)
(* ===================================================================== *)

(** React keys of the emitted elements: [key={index}], [key={`code-${index}`}]
  and [key={`code-end`}]. *)
Inductive Key : Type :=
| KeyIndex (index : nat)
| KeyCode (index : nat)
| KeyCodeEnd.

(** The elements [renderContent] pushes. The class names of [pre], [h1],
  [h2], [h3], [Separator] and [p] are constants of the source and are not
  repeated here; [Pre] carries the class of its [code] child and the text
  child, [P] the string given to [dangerouslySetInnerHTML]. *)
Inductive Element : Type :=
| Pre (key : Key) (codeClassName : str) (text : str)
| H1 (key : Key) (text : str)
| H2 (key : Key) (text : str)
| H3 (key : Key) (text : str)
| SeparatorEl (key : Key)
| P (key : Key) (html : str).

(** The mutable locals of [renderContent]. *)
Record RenderState : Type := mkState {
elements : list Element;
currentCodeBlock : list str;
inCodeBlock : bool;
codeLanguage : str
}.

Definition initState : RenderState := mkState [] [] false [].

Definition FENCE : str := lit "```".

(** [`language-${codeLanguage} text-sm`] *)
Definition codeClass (codeLanguage : str) : str :=
lit "language-" ++ codeLanguage ++ lit " text-sm".

Definition strongOpen : str := lit "<strong>".
Definition strongClose : str := lit "</strong>".
Definition codeOpen : str :=
lit "<code class=" ++ [QUOT] ++
lit "bg-muted px-1.5 py-0.5 rounded text-sm" ++ [QUOT] ++ lit ">".
Definition codeClose : str := lit "</code>".

(** The two inline substitutions, bold first:
  [.replace(/\*\*(.+?)\*\*/g, '<strong>$1</strong>')
   .replace(/`(.+?)`/g, '<code class="...">$1</code>')] *)
Definition inlineMarkup (s : str) : str :=
replaceGroup [BACKTICK] codeOpen codeClose
  (replaceGroup [STAR; STAR] strongOpen strongClose s).

(** [lines.forEach((line, index) => ...)] threads the state through the
  lines, with the index of each. *)
Fixpoint forEach (step : RenderState -> nat -> str -> RenderState)
  (index : nat) (lines : list str) (st : RenderState) : RenderState :=
match lines with
| [] => st
| line :: rest => forEach step (S index) rest (step st index line)
end.

(** *** src/app/blog/[slug]/page.tsx *)
Module Page.

Definition escapeHtml (unsafe : str) : str :=
  replaceChar APOS (lit "&#039;")
    (replaceChar QUOT (lit "&quot;")
      (replaceChar GT (lit "&gt;")
        (replaceChar LT (lit "&lt;")
          (replaceChar AMP (lit "&amp;") unsafe)))).

(** The body of the [forEach] callback. *)
Definition step (st : RenderState) (index : nat) (line : str) : RenderState :=
  if startsWith line FENCE then
    if negb (inCodeBlock st) then
      mkState (elements st) (currentCodeBlock st) true
              (trim (replace FENCE [] line))
    else
      mkState
        (elements st ++
           [Pre (KeyCode index) (codeClass (codeLanguage st))
                (join [LF] (currentCodeBlock st))])
        [] false []
  else if inCodeBlock st then
    mkState (elements st) (currentCodeBlock st ++ [line])
            (inCodeBlock st) (codeLanguage st)
  else if startsWith line (lit "# ") then
    mkState (elements st ++
               [H1 (KeyIndex index) (escapeHtml (replace (lit "# ") [] line))])
            (currentCodeBlock st) (inCodeBlock st) (codeLanguage st)
  else if startsWith line (lit "## ") then
    mkState (elements st ++
               [H2 (KeyIndex index) (escapeHtml (replace (lit "## ") [] line))])
            (currentCodeBlock st) (inCodeBlock st) (codeLanguage st)
  else if startsWith line (lit "### ") then
    mkState (elements st ++
               [H3 (KeyIndex index) (escapeHtml (replace (lit "### ") [] line))])
            (currentCodeBlock st) (inCodeBlock st) (codeLanguage st)
  else if startsWith line (lit "---") then
    mkState (elements st ++ [SeparatorEl (KeyIndex index)])
            (currentCodeBlock st) (inCodeBlock st) (codeLanguage st)
  else if str_eqb (trim line) [] then
    st
  else
    mkState (elements st ++
               [P (KeyIndex index) (inlineMarkup (escapeHtml line))])
            (currentCodeBlock st) (inCodeBlock st) (codeLanguage st).

(** The pending code block, pushed after the loop. *)
Definition finish (st : RenderState) : list Element :=
  if inCodeBlock st && negb (Nat.eqb (length (currentCodeBlock st)) 0) then
    elements st ++
      [Pre KeyCodeEnd (codeClass (codeLanguage st))
           (join [LF] (currentCodeBlock st))]
  else elements st.

Definition renderLines (lines : list str) : list Element :=
  finish (forEach step 0 lines initState).

Definition renderContent (content : str) : list Element :=
  renderLines (split LF (trim content)).

(** The [Metadata] object of [generateMetadata]; absent properties are
    [None]. *)
Record OpenGraph : Type := mkOpenGraph {
  og_title : str;
  og_description : str;
  og_type : str;
  og_publishedTime : str;
  og_authors : list str;
  og_images : list str
}.

Record Twitter : Type := mkTwitter {
  tw_card : str;
  tw_title : str;
  tw_description : str;
  tw_images : list str
}.

Record Metadata : Type := mkMetadata {
  md_title : str;
  md_description : option str;
  md_keywords : option (list str);
  md_authors : option (list str);      (* [{ name: post.author }] *)
  md_openGraph : option OpenGraph;
  md_twitter : option Twitter
}.

(** [post.image ? [post.image] : []]: an absent or empty string is falsy. *)
Definition imagesOf (post : BlogPost) : list str :=
  match image post with
  | Some (c :: s) => [c :: s]
  | _ => []
  end.

Definition generateMetadata (blogPosts : Store) (slug : str)
  : Metadata * Store :=
  let (post, blogPosts) := getPostBySlug blogPosts slug in
  match post with
  | None =>
      (mkMetadata (lit "Post Not Found") None None None None None, blogPosts)
  | Some post =>
      (mkMetadata
         (title post)
         (Some (description post))
         (Some (keywords post))
         (Some [author post])
         (Some (mkOpenGraph (title post) (description post) (lit "article")
                            (date post) [author post] (imagesOf post)))
         (Some (mkTwitter (lit "summary_large_image") (title post)
                          (description post) (imagesOf post))),
       blogPosts)
  end.

(** What [BlogPostPage] yields. [notFound()] of next/navigation does not
    return: it throws the error that makes the framework render the
    not-found page, so nothing after it runs. Of the rendered tree the
    parts computed from data are kept: the post shown in the header, the
    article body and the related posts. *)
Inductive PageResult : Type :=
| NotFound
| Rendered (post : BlogPost) (article : list Element)
           (related : list BlogPost).

Definition BlogPostPage (blogPosts : Store) (slug : str)
  : PageResult * Store :=
  let (post, blogPosts) := getPostBySlug blogPosts slug in
  match post with
  | None => (NotFound, blogPosts)
  | Some post =>
      let article := renderContent (content post) in
      let (all, blogPosts) := getAllPosts blogPosts in
      (Rendered post article
         (firstn 2
            (filter (fun p => negb (str_eqb (BlogData.slug p)
                                            (BlogData.slug post))) all)),
       blogPosts)
  end.

End Page.

(** *** src/unnamed/part_001 *)
Module Part001.

Definition step (st : RenderState) (index : nat) (line : str) : RenderState :=
  if startsWith line FENCE then
    if negb (inCodeBlock st) then
      mkState (elements st) (currentCodeBlock st) true
              (replace FENCE [] line)
    else
      mkState
        (elements st ++
           [Pre (KeyCode index) (codeClass (codeLanguage st))
                (join [LF] (currentCodeBlock st))])
        [] false []
  else if inCodeBlock st then
    mkState (elements st) (currentCodeBlock st ++ [line])
            (inCodeBlock st) (codeLanguage st)
  else if startsWith line (lit "# ") then
    mkState (elements st ++
               [H1 (KeyIndex index) (replace (lit "# ") [] line)])
            (currentCodeBlock st) (inCodeBlock st) (codeLanguage st)
  else if startsWith line (lit "## ") then
    mkState (elements st ++
               [H2 (KeyIndex index) (replace (lit "## ") [] line)])
            (currentCodeBlock st) (inCodeBlock st) (codeLanguage st)
  else if startsWith line (lit "### ") then
    mkState (elements st ++
               [H3 (KeyIndex index) (replace (lit "### ") [] line)])
            (currentCodeBlock st) (inCodeBlock st) (codeLanguage st)
  else if startsWith line (lit "---") then
    mkState (elements st ++ [SeparatorEl (KeyIndex index)])
            (currentCodeBlock st) (inCodeBlock st) (codeLanguage st)
  else if str_eqb (trim line) [] then
    st
  else
    mkState (elements st ++ [P (KeyIndex index) (inlineMarkup line)])
            (currentCodeBlock st) (inCodeBlock st) (codeLanguage st).

Definition renderLines (lines : list str) : list Element :=
  elements (forEach step 0 lines initState).

Definition renderContent (content : str) : list Element :=
  renderLines (split LF (trim content)).

End Part001.



(* ===================================================================== *)
(** ** src/lib/structured-data.ts and its seo-config                      *)
(* ===================================================================== *)

Module StructuredData.

(** The values the builders produce: objects keep their keys in insertion
    order, as [JSON.stringify] walks them. *)
Inductive JSON : Type :=
| JString (s : str)
| JNumber (n : Z)
| JArray (items : list JSON)
| JObject (fields : list (str * JSON)).

(** *** [JSON.stringify] *)

Definition hexDigit (n : N) : char :=
  if N.ltb n 10 then (48 + n)%N else (87 + n)%N.

(** [\uXXXX], lowercase hexadecimal. *)
Definition unicodeEscape (c : char) : str :=
  lit "\u" ++
  [hexDigit ((c / 4096) mod 16); hexDigit ((c / 256) mod 16);
   hexDigit ((c / 16) mod 16); hexDigit (c mod 16)]%N.

Definition isLeadSurrogate (c : char) : bool :=
  N.leb 55296 c && N.leb c 56319.
Definition isTrailSurrogate (c : char) : bool :=
  N.leb 56320 c && N.leb c 57343.

(** One code unit that is not part of a surrogate pair. *)
Definition quoteUnit (c : char) : str :=
  if N.eqb c 8 then lit "\b"
  else if N.eqb c 9 then lit "\t"
  else if N.eqb c 10 then lit "\n"
  else if N.eqb c 12 then lit "\f"
  else if N.eqb c 13 then lit "\r"
  else if N.eqb c 34 then [92; 34]%N
  else if N.eqb c 92 then [92; 92]%N
  else if N.ltb c 32 || isLeadSurrogate c || isTrailSurrogate c
       then unicodeEscape c
  else [c].

Fixpoint quoteUnits (s : str) : str :=
  match s with
  | [] => []
  | c :: s' =>
      match s' with
      | d :: s'' =>
          if isLeadSurrogate c && isTrailSurrogate d
          then c :: d :: quoteUnits s''
          else quoteUnit c ++ quoteUnits s'
      | [] => quoteUnit c
      end
  end.

(** QuoteJSONString *)
Definition quoteJSONString (s : str) : str :=
  [QUOT] ++ quoteUnits s ++ [QUOT].

(** Numbers of the schemas are integers. *)
Definition numberToString (n : Z) : str :=
  lit (DecimalString.NilZero.string_of_int (Z.to_int n)).

Fixpoint stringify (v : JSON) : str :=
  match v with
  | JString s => quoteJSONString s
  | JNumber n => numberToString n
  | JArray items =>
      lit "[" ++ join (lit ",") (map stringify items) ++ lit "]"
  | JObject fields =>
      lit "{" ++
      join (lit ",")
        (map (fun kv : str * JSON => let (k, x) := kv in
                        quoteJSONString k ++ lit ":" ++ stringify x)
             fields) ++
      lit "}"
  end.

(** [l.map((x, index) => f(x, index))] *)
Fixpoint mapFrom {A B : Type} (f : A -> nat -> B) (index : nat) (l : list A)
  : list B :=
  match l with
  | [] => []
  | x :: l' => f x index :: mapFrom f (S index) l'
  end.

Definition mapIndexed {A B : Type} (f : A -> nat -> B) (l : list A) : list B :=
  mapFrom f 0 l.

(** *** seo-config: the shapes *)

(** The properties of [siteConfig] that the builders read. *)
Record SiteConfig : Type := mkSiteConfig {
  name : str;
  title : str;
  description : str;
  url : str;
  email : str;
  links : list (str * str);
  jobTitle : str;
  company : str;
  companyUrl : str;
  skills : list str
}.

Record Project : Type := mkProject {
  p_name : str;
  p_description : str;
  p_url : str;
  p_image : str;
  p_technologies : list str;
  p_datePublished : str
}.

Record Faq : Type := mkFaq {
  question : str;
  answer : str
}.

(** *** The builders *)
Section Builders.
Variable siteConfig : SiteConfig.
Variable projectsData : list Project.
Variable faqData : list Faq.
(** [new Date().toISOString().split("T")[0]], evaluated once, when the
    module is loaded. *)
Variable today : str.

Definition field (k : string) (v : JSON) : str * JSON := (lit k, v).

Definition personId : JSON :=
  JObject [field "@id" (JString (url siteConfig ++ lit "/#person"))].

Definition personSchema : JSON :=
  JObject
    [ field "@context" (JString (lit "https://schema.org"));
      field "@type" (JString (lit "Person"));
      field "@id" (JString (url siteConfig ++ lit "/#person"));
      field "name" (JString (name siteConfig));
      field "givenName" (JString (lit "Debmalya"));
      field "familyName" (JString (lit "Biswas"));
      field "url" (JString (url siteConfig));
      field "image"
        (JObject
           [ field "@type" (JString (lit "ImageObject"));
             field "url" (JString (url siteConfig ++ lit "/og-image.png"));
             field "width" (JNumber 1200);
             field "height" (JNumber 630) ]);
      field "email" (JString (lit "mailto:" ++ email siteConfig));
      field "jobTitle" (JString (jobTitle siteConfig));
      field "description" (JString (description siteConfig));
      field "sameAs" (JArray (map (fun kv => JString (snd kv)) (links siteConfig)));
      field "worksFor"
        (JObject
           [ field "@type" (JString (lit "Organization"));
             field "name" (JString (company siteConfig));
             field "url" (JString (companyUrl siteConfig)) ]);
      field "alumniOf"
        (JObject
           [ field "@type" (JString (lit "EducationalOrganization"));
             field "name" (JString (lit "University")) ]);
      field "knowsAbout" (JArray (map JString (skills siteConfig)));
      field "nationality"
        (JObject
           [ field "@type" (JString (lit "Country"));
             field "name" (JString (lit "India")) ]) ].

Definition websiteSchema : JSON :=
  JObject
    [ field "@context" (JString (lit "https://schema.org"));
      field "@type" (JString (lit "WebSite"));
      field "@id" (JString (url siteConfig ++ lit "/#website"));
      field "url" (JString (url siteConfig));
      field "name" (JString (title siteConfig));
      field "description" (JString (description siteConfig));
      field "publisher" personId;
      field "inLanguage" (JString (lit "en-US"));
      field "potentialAction"
        (JObject
           [ field "@type" (JString (lit "SearchAction"));
             field "target"
               (JObject
                  [ field "@type" (JString (lit "EntryPoint"));
                    field "urlTemplate"
                      (JString (url siteConfig ++
                                lit "/?s={search_term_string}")) ]);
             field "query-input"
               (JString (lit "required name=search_term_string")) ]) ].

Definition webPageSchema : JSON :=
  JObject
    [ field "@context" (JString (lit "https://schema.org"));
      field "@type" (JString (lit "WebPage"));
      field "@id" (JString (url siteConfig ++ lit "/#webpage"));
      field "url" (JString (url siteConfig));
      field "name" (JString (title siteConfig));
      field "description" (JString (description siteConfig));
      field "isPartOf"
        (JObject [field "@id" (JString (url siteConfig ++ lit "/#website"))]);
      field "about" personId;
      field "primaryImageOfPage"
        (JObject
           [ field "@type" (JString (lit "ImageObject"));
             field "url" (JString (url siteConfig ++ lit "/og-image.png")) ]);
      field "datePublished" (JString (lit "2024-01-01"));
      field "dateModified" (JString today);
      field "inLanguage" (JString (lit "en-US")) ].

Definition profilePageSchema : JSON :=
  JObject
    [ field "@context" (JString (lit "https://schema.org"));
      field "@type" (JString (lit "ProfilePage"));
      field "@id" (JString (url siteConfig ++ lit "/#profilepage"));
      field "url" (JString (url siteConfig));
      field "name" (JString (name siteConfig ++ lit " - Portfolio"));
      field "mainEntity" personId;
      field "dateCreated" (JString (lit "2024-01-01"));
      field "dateModified" (JString today) ].

(** The callback of [projectsData.map]. *)
Definition projectListItem (project : Project) (index : nat) : JSON :=
  JObject
    [ field "@type" (JString (lit "ListItem"));
      field "position" (JNumber (Z.of_nat index + 1));
      field "item"
        (JObject
           [ field "@type" (JString (lit "CreativeWork"));
             field "name" (JString (p_name project));
             field "description" (JString (p_description project));
             field "url" (JString (p_url project));
             field "image" (JString (url siteConfig ++ p_image project));
             field "datePublished" (JString (p_datePublished project));
             field "author" personId;
             field "keywords"
               (JString (join (lit ", ") (p_technologies project))) ]) ].

Definition projectsListSchema : JSON :=
  JObject
    [ field "@context" (JString (lit "https://schema.org"));
      field "@type" (JString (lit "ItemList"));
      field "@id" (JString (url siteConfig ++ lit "/#projects"));
      field "name" (JString (lit "Featured Projects"));
      field "description"
        (JString (lit "Portfolio projects showcasing web development expertise"));
      field "numberOfItems" (JNumber (Z.of_nat (length projectsData)));
      field "itemListElement"
        (JArray (mapIndexed projectListItem projectsData)) ].

(** The callback of [faqData.map]. *)
Definition faqQuestion (faq : Faq) : JSON :=
  JObject
    [ field "@type" (JString (lit "Question"));
      field "name" (JString (question faq));
      field "acceptedAnswer"
        (JObject
           [ field "@type" (JString (lit "Answer"));
             field "text" (JString (answer faq)) ]) ].

Definition faqSchema : JSON :=
  JObject
    [ field "@context" (JString (lit "https://schema.org"));
      field "@type" (JString (lit "FAQPage"));
      field "@id" (JString (url siteConfig ++ lit "/#faq"));
      field "mainEntity" (JArray (map faqQuestion faqData)) ].

Definition breadcrumbSchema : JSON :=
  JObject
    [ field "@context" (JString (lit "https://schema.org"));
      field "@type" (JString (lit "BreadcrumbList"));
      field "itemListElement"
        (JArray
           [ JObject
               [ field "@type" (JString (lit "ListItem"));
                 field "position" (JNumber 1);
                 field "name" (JString (lit "Home"));
                 field "item" (JString (url siteConfig)) ] ]) ].

Definition organizationSchema : JSON :=
  JObject
    [ field "@context" (JString (lit "https://schema.org"));
      field "@type" (JString (lit "Organization"));
      field "@id" (JString (companyUrl siteConfig ++ lit "/#organization"));
      field "name" (JString (company siteConfig));
      field "url" (JString (companyUrl siteConfig));
      field "employee" personId ].

Definition offer (offerName offerDescription : string) : JSON :=
  JObject
    [ field "@type" (JString (lit "Offer"));
      field "itemOffered"
        (JObject
           [ field "@type" (JString (lit "Service"));
             field "name" (JString (lit offerName));
             field "description" (JString (lit offerDescription)) ]) ].

Definition serviceSchema : JSON :=
  JObject
    [ field "@context" (JString (lit "https://schema.org"));
      field "@type" (JString (lit "Service"));
      field "@id" (JString (url siteConfig ++ lit "/#service"));
      field "name" (JString (lit "Web Development Services"));
      field "description"
        (JString (lit "Professional frontend and full-stack web development services specializing in React, Next.js, and TypeScript."));
      field "provider" personId;
      field "serviceType" (JString (lit "Web Development"));
      field "areaServed"
        (JObject
           [ field "@type" (JString (lit "Country"));
             field "name" (JString (lit "Worldwide")) ]);
      field "hasOfferCatalog"
        (JObject
           [ field "@type" (JString (lit "OfferCatalog"));
             field "name" (JString (lit "Web Development Services"));
             field "itemListElement"
               (JArray
                  [ offer "Frontend Development"
                          "Modern, responsive frontend development using React and Next.js";
                    offer "Full Stack Development"
                          "End-to-end web application development with Node.js backend";
                    offer "Performance Optimization"
                          "Web performance audits and optimization for better user experience" ]) ]) ].

Definition combinedSchema : JSON :=
  JArray
    [ personSchema; websiteSchema; webPageSchema; profilePageSchema;
      projectsListSchema; faqSchema; breadcrumbSchema; serviceSchema ].

End Builders.

(** The module after it has been loaded: the exported array, which every
    later call reads. *)
Record Loaded : Type := mkLoaded {
  loadedCombinedSchema : JSON
}.

(** Loading the module evaluates the builders, once, on the day [today]. *)
Definition load (siteConfig : SiteConfig) (projectsData : list Project)
    (faqData : list Faq) (today : str) : Loaded :=
  mkLoaded (combinedSchema siteConfig projectsData faqData today).

(** [JSON.stringify(combinedSchema)]: reads the array, changes nothing. *)
Definition generateSchemaScript (m : Loaded) : str * Loaded :=
  (stringify (loadedCombinedSchema m), m).

(** The results of [n] successive calls. *)
Fixpoint callsOfGenerateSchemaScript (n : nat) (m : Loaded) : list str :=
  match n with
  | O => []
  | S n' => let (out, m') := generateSchemaScript m in
            out :: callsOfGenerateSchemaScript n' m'
  end.

(** Reading a property of an object: the first field with that key. *)
Fixpoint getField (k : str) (fields : list (str * JSON)) : option JSON :=
  match fields with
  | [] => None
  | (k', v) :: rest => if str_eqb k' k then Some v else getField k rest
  end.

Definition get (k : string) (v : JSON) : option JSON :=
  match v with
  | JObject fields => getField (lit k) fields
  | _ => None
  end.

(** *** seo-config: the data *)
Module SeoConfig.

Definition siteConfig : SiteConfig :=
  mkSiteConfig
    (lit "Debmalya Biswas")
    (lit "Debmalya Biswas | Frontend & Full Stack Engineer")
    (lit "Frontend & Full Stack Engineer specializing in React, Next.js, and TypeScript. Building performant, beautiful web experiences at SaffronStays. View my portfolio, projects, and get in touch.")
    (lit "https://www.debmalya.in/")
    (lit "viperbale.db@gmail.com")
    [ (lit "github", lit "https://github.com/debmalya");
      (lit "linkedin", lit "https://linkedin.com/in/debmalya");
      (lit "twitter", lit "https://twitter.com/debmalya") ]
    (lit "SDE-1")
    (lit "SaffronStays")
    (lit "https://saffronsstays.com")
    [ lit "React"; lit "Next.js"; lit "TypeScript"; lit "JavaScript";
      lit "Node.js"; lit "Tailwind CSS"; lit "PostgreSQL"; lit "MongoDB";
      lit "GraphQL"; lit "Docker"; lit "AWS"; lit "Performance Optimization";
      lit "Frontend Architecture"; lit "Full Stack Development";
      lit "Web Development"; lit "UI/UX Engineering" ].

Definition projectsData : list Project :=
  [ mkProject
      (lit "Coinhub")
      (lit "A React based Web App where you can see the live price of various cryptos and also the previous trend of the price of that specific Crypto built using ReactJs, ChakraUI, CoinGecko API, and FramerMotion.")
      (lit "https://coinhub-db.vercel.app/")
      (lit "/real-time-analytics-dashboard-charts-graphs.jpg")
      [lit "React"; lit "ChakraUI"; lit "CoinGecko API"; lit "FramerMotion"]
      (lit "2023-01-01");
    mkProject
      (lit "theEngineerGuy")
      (lit "A Blogging Website where you can post your own blog, edit and delete and view other user's blog. A custom Dashboard(CMS) has been made for all the users. Built using NextJs, TypeScript, MongoDB for database, Next-Auth for authentication with Custom Credentials Provider and Google Auth.")
      (lit "https://theengineerguy.vercel.app/")
      (lit "/ai-content-generation-interface.jpg")
      [lit "Next.js"; lit "TypeScript"; lit "MongoDB"; lit "Next-Auth";
       lit "SCSS"; lit "REST API"]
      (lit "2023-06-01");
    mkProject
      (lit "Apna Dukan")
      (lit "A full-stack e-commerce web application made using the MERN Stack. Features include User Registration and Authentication, Filters, Functional Search Bar, Cart, Wishlist, Payment Gateway(RazorPay), User Dashboard, Admin Dashboard, Protected Routes.")
      (lit "https://apnadukan.vercel.app/")
      (lit "/ecommerce-store-product-catalog.jpg")
      [lit "React"; lit "MongoDB"; lit "Node.js"; lit "Express"; lit "RazorPay"]
      (lit "2023-09-01") ].

Definition faqData : list Faq :=
  [ mkFaq
      (lit "What technologies does Debmalya Biswas specialize in?")
      (lit "Debmalya specializes in React, Next.js, TypeScript, Node.js, and modern frontend technologies. He has extensive experience with performance optimization, frontend architecture, and full-stack development.");
    mkFaq
      (lit "Is Debmalya available for freelance projects?")
      (lit "Yes, Debmalya is currently open for freelance projects and full-time opportunities. You can reach out through the contact form on this website.");
    mkFaq
      (lit "What kind of projects has Debmalya worked on?")
      (lit "Debmalya has worked on diverse projects including property management platforms, real-time analytics dashboards, component libraries, e-commerce platforms, and AI-powered applications.");
    mkFaq
      (lit "Where is Debmalya Biswas currently working?")
      (lit "Debmalya currently works as an SDE-1 at SaffronStays, where he focuses on full-stack development, API migrations, and performance optimization.") ].

End SeoConfig.

End StructuredData.

(* ===================================================================== *)
(** ** Notions used to state the properties                               *)
(* ===================================================================== *)

(** The four tags the inline substitutions insert. *)
Definition fixedTags : list str :=
  [strongOpen; strongClose; codeOpen; codeClose].

(** [s] starts with one of the four tags. *)
Definition tagAt (s : str) : bool := existsb (startsWith s) fixedTags.

(** Every [<] of [s] starts one of the four tags. *)
Fixpoint onlyFixedTags (s : str) : bool :=
  match s with
  | [] => true
  | c :: s' => (negb (N.eqb c LT) || tagAt s) && onlyFixedTags s'
  end.

(** The five characters [escapeHtml] rewrites. *)
Definition needsEscape (c : char) : bool :=
  N.eqb c AMP || N.eqb c LT || N.eqb c GT || N.eqb c QUOT || N.eqb c APOS.

(** The code block page.tsx pushes after the loop, if any. *)
Definition pendingBlock (st : RenderState) : list Element :=
  if inCodeBlock st && negb (Nat.eqb (length (currentCodeBlock st)) 0) then
    [Pre KeyCodeEnd (codeClass (codeLanguage st))
         (join [LF] (currentCodeBlock st))]
  else [].

(** The lines outside code fences, fence lines left out: the lines that
    become headings, separators, paragraphs or nothing. [inFence] tells
    whether a fence is open before the first line. *)
Fixpoint outsideFences (inFence : bool) (lines : list str) : list str :=
  match lines with
  | [] => []
  | line :: rest =>
      if startsWith line FENCE then outsideFences (negb inFence) rest
      else if inFence then outsideFences inFence rest
      else line :: outsideFences inFence rest
  end.

(** The lines that open a fence. *)
Fixpoint fenceOpenings (inFence : bool) (lines : list str) : list str :=
  match lines with
  | [] => []
  | line :: rest =>
      if startsWith line FENCE then
        if inFence then fenceOpenings false rest
        else line :: fenceOpenings true rest
      else fenceOpenings inFence rest
  end.

(** [s] holds none of the characters [escapeHtml] rewrites. *)
Definition plain (s : str) : Prop :=
  Forall (fun c => needsEscape c = false) s.

(** The text after the opening backticks has no white space at either
    end. *)
Definition languageTrimmed (line : str) : Prop :=
  trim (replace FENCE [] line) = replace FENCE [] line.

(** Outside a fence nothing is pending. *)
Definition idle (st : RenderState) : Prop :=
  inCodeBlock st = false -> currentCodeBlock st = [].

(** A call of one of the four helpers of blog-data.ts, and what it
    returns. *)
Inductive HelperCall : Type :=
| CallGetAllPosts
| CallGetPostBySlug (slug : str)
| CallGetPostsByTag (tag : str)
| CallGetAllTags.

Inductive HelperResult : Type :=
| ResultPosts (posts : list BlogPost)
| ResultPost (post : option BlogPost)
| ResultTags (tags : list str).

Definition callHelper (toLowerCase : str -> str) (c : HelperCall)
    (blogPosts : Store) : HelperResult * Store :=
  match c with
  | CallGetAllPosts =>
      let (r, blogPosts) := getAllPosts blogPosts in (ResultPosts r, blogPosts)
  | CallGetPostBySlug slug =>
      let (r, blogPosts) := getPostBySlug blogPosts slug in
      (ResultPost r, blogPosts)
  | CallGetPostsByTag tag =>
      let (r, blogPosts) := getPostsByTag toLowerCase blogPosts tag in
      (ResultPosts r, blogPosts)
  | CallGetAllTags =>
      let (r, blogPosts) := getAllTags blogPosts in (ResultTags r, blogPosts)
  end.

(** The array after a sequence of calls. *)
Definition afterCalls (toLowerCase : str -> str) (calls : list HelperCall)
    (blogPosts : Store) : Store :=
  fold_left (fun st c => snd (callHelper toLowerCase c st)) calls blogPosts.

(** [x] may stay in front of [y] in an array sorted with [comparefn]. *)
Definition inOrder {A : Type} (comparefn : A -> A -> option Z) (x y : A)
  : Prop :=
  (sortCompare comparefn x y <= 0)%Z.

(** [a] is dated no earlier than [b], both dates being time values. *)
Definition notOlder (a b : BlogPost) : Prop :=
  exists ta tb, getTime (date a) = Some ta /\ getTime (date b) = Some tb /\
                (ta >= tb)%Z.

(** [r] holds exactly the elements of [l] that satisfy [Q], as often and in
    the order in which they occur in [l]. *)
Inductive Selected {A : Type} (Q : A -> Prop) : list A -> list A -> Prop :=
| Selected_nil : Selected Q [] []
| Selected_keep x l r : Q x -> Selected Q l r -> Selected Q (x :: l) (x :: r)
| Selected_skip x l r : ~ Q x -> Selected Q l r -> Selected Q (x :: l) r.

(** [post] has a tag that equals [tag] once both are lowercased. *)
Definition hasTagIgnoringCase (toLowerCase : str -> str) (tag : str)
    (post : BlogPost) : Prop :=
  exists t, In t (tags post) /\ toLowerCase t = toLowerCase tag.

(* ===================================================================== *)
(** ** Further functions of the cited files                               *)
(* ===================================================================== *)

(** [generateStaticParams] of src/app/blog/[slug]/page.tsx: one
    [{ slug: post.slug }] per post of [getAllPosts()]. *)
Record StaticParam : Type := mkStaticParam {
  param_slug : str
}.

Definition generateStaticParams (blogPosts : Store)
  : list StaticParam * Store :=
  let (posts, blogPosts) := getAllPosts blogPosts in
  (map (fun post => mkStaticParam (slug post)) posts, blogPosts).

(** [BlogPage], the blog index page (the third file carried by
    src/app/robots.ts), which calls [getAllPosts()] and then
    [getAllTags()]: the topics shown in the header and one card per post,
    each with [post.tags.slice(0, 2)]. *)
Record BlogIndex : Type := mkBlogIndex {
  topics : list str;
  cards : list (BlogPost * list str)
}.

Definition BlogPage (blogPosts : Store) : BlogIndex * Store :=
  let (posts, blogPosts) := getAllPosts blogPosts in
  let (tags, blogPosts) := getAllTags blogPosts in
  (mkBlogIndex tags (map (fun post => (post, firstn 2 (BlogData.tags post))) posts),
   blogPosts).

(* ===================================================================== *)
(** ** Further notions                                                    *)
(* ===================================================================== *)

(** What [escapeHtml] makes of one code unit. *)
Definition escapeChar (c : char) : str :=
  if N.eqb c AMP then lit "&amp;"
  else if N.eqb c LT then lit "&lt;"
  else if N.eqb c GT then lit "&gt;"
  else if N.eqb c QUOT then lit "&quot;"
  else if N.eqb c APOS then lit "&#039;"
  else [c].

(** The five entities [escapeHtml] writes. *)
Definition entities : list str :=
  [lit "&amp;"; lit "&lt;"; lit "&gt;"; lit "&quot;"; lit "&#039;"].

(** Every occurrence of [c0] in [s] starts one of [pats]. *)
Fixpoint startsOnly (c0 : char) (pats : list str) (s : str) : bool :=
  match s with
  | [] => true
  | c :: s' =>
      (negb (N.eqb c c0) || existsb (startsWith s) pats) &&
      startsOnly c0 pats s'
  end.

(** The React key of an element. *)
Definition keyOf (e : Element) : Key :=
  match e with
  | Pre k _ _ => k
  | H1 k _ => k
  | H2 k _ => k
  | H3 k _ => k
  | SeparatorEl k => k
  | P k _ => k
  end.

Definition isPre (e : Element) : bool :=
  match e with Pre _ _ _ => true | _ => false end.

(** The number of code blocks among the elements. *)
Definition countPre (els : list Element) : nat := length (filter isPre els).

(** The number of lines that start with three backticks. *)
Definition countFences (lines : list str) : nat :=
  length (filter (fun line => startsWith line FENCE) lines).

(** A heading with the given text, of any level. *)
Definition isHeading (e : Element) (text : str) : Prop :=
  exists k, e = H1 k text \/ e = H2 k text \/ e = H3 k text.

(** [post] is dated [t]. *)
Definition datedAt (t : Z) (post : BlogPost) : bool :=
  match getTime (date post) with
  | Some t' => Z.eqb t' t
  | None => false
  end.

(** Every string of a JSON value: string values and property names. *)
Fixpoint jsonStrings (v : StructuredData.JSON) : list str :=
  match v with
  | StructuredData.JString s => [s]
  | StructuredData.JNumber _ => []
  | StructuredData.JArray items => flat_map jsonStrings items
  | StructuredData.JObject fields =>
      flat_map (fun kv : str * StructuredData.JSON =>
                  let (k, x) := kv in k :: jsonStrings x) fields
  end.

(** Every key so far carries the index of a line already read, and no key
    occurs twice. *)
Definition keysBelow (i : nat) (st : RenderState) : Prop :=
  NoDup (map keyOf (elements st)) /\
  forall k, In k (map keyOf (elements st)) ->
            exists j, j < i /\ (k = KeyIndex j \/ k = KeyCode j).

(** An element without what the two copies of the renderer may compute
    differently: the kind, the key and the text of a code block stay, the
    class of a code block and the text or HTML of headings and paragraphs
    are blanked. *)
Definition skeleton (e : Element) : Element :=
  match e with
  | Pre k _ text => Pre k [] text
  | H1 k _ => H1 k []
  | H2 k _ => H2 k []
  | H3 k _ => H3 k []
  | SeparatorEl k => SeparatorEl k
  | P k _ => P k []
  end.

(** The two loops are at the same point: same fence state, same pending
    lines, same elements up to [skeleton]. *)
Definition inStep (a b : RenderState) : Prop :=
  inCodeBlock a = inCodeBlock b /\
  currentCodeBlock a = currentCodeBlock b /\
  map skeleton (elements a) = map skeleton (elements b).

(* ===================================================================== *)
(** ** Facts about the string functions                                   *)
(* ===================================================================== *)

Lemma str_eqb_eq (a b : str) : str_eqb a b = true <-> a = b.
Proof.
  revert b; induction a as [|x a IH]; intros [|y b]; simpl;
    try (split; [discriminate | discriminate]); try tauto.
  rewrite andb_true_iff, N.eqb_eq, IH.
  split; [intros [-> ->]; reflexivity | intros H; inversion H; auto].
Qed.

Lemma str_eqb_refl (a : str) : str_eqb a a = true.
Proof. apply str_eqb_eq; reflexivity. Qed.

Lemma str_eqb_neq (a b : str) : str_eqb a b = false <-> a <> b.
Proof.
  rewrite <- str_eqb_eq. destruct (str_eqb a b); split; congruence.
Qed.

Lemma stripPrefix_Some (pat s rest : str) :
  stripPrefix pat s = Some rest <-> s = pat ++ rest.
Proof.
  revert s; induction pat as [|p pat IH]; intros s; simpl.
  - split; [intros H; inversion H; reflexivity | intros ->; reflexivity].
  - destruct s as [|c s]; [split; discriminate|].
    destruct (N.eqb_spec p c) as [->|Hne].
    + rewrite IH. split; [intros ->; reflexivity | intros H; inversion H; auto].
    + split; [discriminate | intros H; inversion H; congruence].
Qed.

Lemma stripPrefix_app (pat rest : str) : stripPrefix pat (pat ++ rest) = Some rest.
Proof. apply stripPrefix_Some; reflexivity. Qed.

Lemma startsWith_true (s pat : str) :
  startsWith s pat = true <-> exists rest, s = pat ++ rest.
Proof.
  unfold startsWith. destruct (stripPrefix pat s) as [r|] eqn:E.
  - apply stripPrefix_Some in E. split; [eauto | reflexivity].
  - split; [discriminate|]. intros [r Hr].
    apply stripPrefix_Some in Hr. congruence.
Qed.

Lemma startsWith_app (pat rest : str) : startsWith (pat ++ rest) pat = true.
Proof. apply startsWith_true; eauto. Qed.

Lemma startsWith_weaken (s pat more : str) :
  startsWith s pat = true -> startsWith (s ++ more) pat = true.
Proof.
  rewrite !startsWith_true. intros [r ->]. exists (r ++ more).
  now rewrite app_assoc.
Qed.

(** A prefix test that succeeds on [x ++ d :: r] for a pattern without [d]
    already succeeds on [x]. *)
Lemma startsWith_cut (pat x r : str) (d : char) :
  ~ In d pat -> startsWith (x ++ d :: r) pat = true -> startsWith x pat = true.
Proof.
  unfold startsWith. revert x; induction pat as [|p pat IH]; intros x Hd; simpl.
  - reflexivity.
  - destruct x as [|c x]; simpl.
    + destruct (N.eqb_spec p d) as [->|_]; [|discriminate].
      exfalso; apply Hd; left; reflexivity.
    + destruct (N.eqb p c); [|discriminate].
      apply IH. intros H; apply Hd; right; exact H.
Qed.

(** The first occurrence of a pattern the string starts with is its head. *)
Lemma replace_prefix (pat rep rest : str) :
  replace pat rep (pat ++ rest) = rep ++ rest.
Proof.
  destruct (pat ++ rest) as [|c s] eqn:E; simpl.
  - rewrite <- E, stripPrefix_app. reflexivity.
  - rewrite <- E, stripPrefix_app. reflexivity.
Qed.

Lemma replaceChar_absent (c : char) (rep s : str) :
  ~ In c s -> replaceChar c rep s = s.
Proof.
  unfold replaceChar. induction s as [|x s IH]; simpl; intros H; [reflexivity|].
  destruct (N.eqb_spec x c) as [->|_]; [exfalso; apply H; now left|].
  simpl. f_equal. apply IH. intros Hin; apply H; now right.
Qed.

Lemma replaceChar_Forall (P : char -> Prop) (c : char) (rep s : str) :
  Forall P rep -> (forall x, In x s -> x <> c -> P x) ->
  Forall P (replaceChar c rep s).
Proof.
  intros Hrep. unfold replaceChar.
  induction s as [|x s IH]; simpl; intros H; [constructor|].
  apply Forall_app; split.
  - destruct (N.eqb_spec x c); [exact Hrep|].
    constructor; [apply H; auto | constructor].
  - apply IH. intros y Hy; apply H; now right.
Qed.

Lemma lazyGroup_Some (delim s g rest : str) :
  lazyGroup delim s = Some (g, rest) -> s = g ++ delim ++ rest /\ g <> [].
Proof.
  revert g; induction s as [|c s IH]; intros g; simpl; [discriminate|].
  destruct (isLineTerminator c); [discriminate|].
  destruct (stripPrefix delim s) as [r|] eqn:E.
  - intros H; inversion H; subst. apply stripPrefix_Some in E. subst.
    split; [reflexivity | discriminate].
  - destruct (lazyGroup delim s) as [[g' r']|]; [|discriminate].
    intros H; inversion H; subst.
    destruct (IH g' eq_refl) as [-> _]. split; [reflexivity | discriminate].
Qed.

(** What [exec] returns cuts the string at the two delimiters. *)
Lemma exec_Some (delim s pre g rest : str) :
  exec delim s = Some (pre, g, rest) ->
  s = pre ++ delim ++ g ++ delim ++ rest /\ g <> [].
Proof.
  revert pre; induction s as [|c s IH]; intros pre.
  - simpl. unfold matchHere.
    destruct (stripPrefix delim []) as [s1|] eqn:E; [|discriminate].
    destruct (lazyGroup delim s1) as [[g' r']|] eqn:L; [|discriminate].
    intros H; inversion H; subst.
    apply stripPrefix_Some in E. apply lazyGroup_Some in L as [-> Hg].
    split; [exact E | exact Hg].
  - simpl. destruct (matchHere delim (c :: s)) as [[g' r']|] eqn:M.
    + intros H; inversion H; subst. unfold matchHere in M.
      destruct (stripPrefix delim (c :: s)) as [s1|] eqn:E; [|discriminate].
      apply stripPrefix_Some in E. apply lazyGroup_Some in M as [-> Hg].
      split; [exact E | exact Hg].
    + destruct (exec delim s) as [[[pre' g'] r']|]; [|discriminate].
      intros H; inversion H; subst.
      destruct (IH pre' eq_refl) as [-> Hg]. split; [reflexivity | exact Hg].
Qed.

(** The bound of the global replace is never reached: the loop obeys its
    unfolding equation on every string. *)
Lemma replaceGroup_loop_fuel (delim open close : str) (n m : nat) (s : str) :
  length s < n -> length s < m ->
  replaceGroup_loop n delim open close s =
  replaceGroup_loop m delim open close s.
Proof.
  revert m s; induction n as [|n IH]; intros m s Hn Hm; [lia|].
  destruct m as [|m]; [lia|]. simpl.
  destruct (exec delim s) as [[[pre g] rest]|] eqn:E; [|reflexivity].
  apply exec_Some in E as [-> Hg].
  do 4 f_equal. apply IH.
  - rewrite !length_app in Hn. destruct g; [congruence|]. simpl in Hn. lia.
  - rewrite !length_app in Hm. destruct g; [congruence|]. simpl in Hm. lia.
Qed.

Lemma replaceGroup_unfold (delim open close s : str) :
  replaceGroup delim open close s =
  match exec delim s with
  | None => s
  | Some (pre, g, rest) =>
      pre ++ open ++ g ++ close ++ replaceGroup delim open close rest
  end.
Proof.
  unfold replaceGroup at 1. simpl.
  destruct (exec delim s) as [[[pre g] rest]|] eqn:E; [|reflexivity].
  do 4 f_equal. apply exec_Some in E as [-> Hg].
  apply replaceGroup_loop_fuel.
  - rewrite !length_app. destruct g; [congruence|]. simpl. lia.
  - lia.
Qed.

Lemma exec_rest_shorter (delim s pre g rest : str) :
  exec delim s = Some (pre, g, rest) -> length rest < length s.
Proof.
  intros E. apply exec_Some in E as [-> Hg].
  rewrite !length_app. destruct g; [congruence|]. simpl. lia.
Qed.

(* ===================================================================== *)
(** ** The renderer: escaping and the inserted tags                       *)
(* ===================================================================== *)

Lemma tagAt_weaken (s more : str) : tagAt s = true -> tagAt (s ++ more) = true.
Proof.
  unfold tagAt. rewrite !existsb_exists.
  intros [t [Ht Hs]]. exists t. split; [exact Ht | now apply startsWith_weaken].
Qed.

Lemma onlyFixedTags_app (a b : str) :
  onlyFixedTags a = true -> onlyFixedTags b = true ->
  onlyFixedTags (a ++ b) = true.
Proof.
  induction a as [|c a IH]; simpl; intros Ha Hb; [exact Hb|].
  apply andb_true_iff in Ha as [Hc Ha].
  apply andb_true_iff; split; [|now apply IH].
  apply orb_true_iff in Hc as [Hc|Hc]; apply orb_true_iff; [now left|right].
  exact (tagAt_weaken (c :: a) b Hc).
Qed.

Lemma onlyFixedTags_suffix (a b : str) :
  onlyFixedTags (a ++ b) = true -> onlyFixedTags b = true.
Proof.
  induction a as [|c a IH]; simpl; [auto|].
  intros H. apply andb_true_iff in H as [_ H]. now apply IH.
Qed.

(** Cutting right before a character that no tag contains keeps the
    property: no tag straddles the cut. *)
Lemma onlyFixedTags_cut (x r : str) (d : char) :
  (forall t, In t fixedTags -> ~ In d t) ->
  onlyFixedTags (x ++ d :: r) = true -> onlyFixedTags x = true.
Proof.
  intros Hd. induction x as [|c x IH]; simpl; [reflexivity|].
  intros H. apply andb_true_iff in H as [Hc H].
  apply andb_true_iff; split; [|now apply IH].
  apply orb_true_iff in Hc as [Hc|Hc]; apply orb_true_iff; [now left|right].
  unfold tagAt in *. rewrite existsb_exists in *.
  destruct Hc as [t [Ht Hs]]. exists t. split; [exact Ht|].
  apply (startsWith_cut t (c :: x) r d); [now apply Hd | exact Hs].
Qed.

Lemma noLT_onlyFixedTags (s : str) :
  Forall (fun c => c <> LT) s -> onlyFixedTags s = true.
Proof.
  induction 1 as [|c s Hc _ IH]; simpl; [reflexivity|].
  apply andb_true_iff; split; [|exact IH].
  apply orb_true_iff; left. apply negb_true_iff, N.eqb_neq, Hc.
Qed.

(** A global replace whose delimiter starts with a character foreign to the
    tags, and that inserts tags, keeps the property. *)
Lemma onlyFixedTags_replaceGroup (d : char) (delim open close : str) :
  (forall t, In t fixedTags -> ~ In d t) ->
  onlyFixedTags open = true -> onlyFixedTags close = true ->
  forall s, onlyFixedTags s = true ->
            onlyFixedTags (replaceGroup (d :: delim) open close s) = true.
Proof.
  intros Hd Ho Hc s. unfold replaceGroup. generalize (S (length s)) as n.
  intros n; revert s; induction n as [|n IH]; intros s Hs; simpl; [exact Hs|].
  destruct (exec (d :: delim) s) as [[[pre g] rest]|] eqn:E; [|exact Hs].
  apply exec_Some in E as [-> _].
  assert (Hpre : onlyFixedTags pre = true).
  { apply (onlyFixedTags_cut pre (delim ++ g ++ (d :: delim) ++ rest) d Hd Hs). }
  apply onlyFixedTags_suffix in Hs.
  change ((d :: delim) ++ g ++ (d :: delim) ++ rest)
    with ([d] ++ delim ++ g ++ (d :: delim) ++ rest) in Hs.
  apply onlyFixedTags_suffix in Hs. apply onlyFixedTags_suffix in Hs.
  assert (Hg : onlyFixedTags g = true).
  { apply (onlyFixedTags_cut g (delim ++ rest) d Hd Hs). }
  apply onlyFixedTags_suffix in Hs.
  change ((d :: delim) ++ rest) with ([d] ++ delim ++ rest) in Hs.
  apply onlyFixedTags_suffix in Hs. apply onlyFixedTags_suffix in Hs.
  repeat apply onlyFixedTags_app; auto.
Qed.

Lemma escapeHtml_noLT (s : str) : Forall (fun c => c <> LT) (Page.escapeHtml s).
Proof.
  unfold Page.escapeHtml.
  assert (lits : forall l : str, forallb (fun c => negb (N.eqb c LT)) l = true ->
                                 Forall (fun c => c <> LT) l).
  { intros l H. apply Forall_forall. intros x Hx.
    rewrite forallb_forall in H. specialize (H x Hx).
    now apply negb_true_iff, N.eqb_neq in H. }
  apply replaceChar_Forall; [now apply lits|]. intros x Hx _. revert x Hx.
  apply Forall_forall.
  apply replaceChar_Forall; [now apply lits|]. intros x Hx _. revert x Hx.
  apply Forall_forall.
  apply replaceChar_Forall; [now apply lits|]. intros x Hx _. revert x Hx.
  apply Forall_forall.
  apply replaceChar_Forall; [now apply lits|]. intros x _ Hx. exact Hx.
Qed.

Lemma tags_without (d : char) :
  forallb (fun t => negb (existsb (N.eqb d) t)) fixedTags = true ->
  forall t, In t fixedTags -> ~ In d t.
Proof.
  intros H t Ht Hin. rewrite forallb_forall in H. specialize (H t Ht).
  apply negb_true_iff in H.
  assert (existsb (N.eqb d) t = true); [|congruence].
  apply existsb_exists. exists d. split; [exact Hin | apply N.eqb_refl].
Qed.

(** The string given to [dangerouslySetInnerHTML] for a line. *)
Lemma inlineMarkup_escapeHtml_onlyFixedTags (line : str) :
  onlyFixedTags (inlineMarkup (Page.escapeHtml line)) = true.
Proof.
  unfold inlineMarkup.
  apply onlyFixedTags_replaceGroup; try reflexivity.
  - apply tags_without; reflexivity.
  - apply onlyFixedTags_replaceGroup; try reflexivity.
    + apply tags_without; reflexivity.
    + apply noLT_onlyFixedTags, escapeHtml_noLT.
Qed.

Lemma onlyFixedTags_positions (s : str) :
  onlyFixedTags s = true ->
  forall i, nth_error s i = Some LT ->
            exists tag rest, In tag fixedTags /\ skipn i s = tag ++ rest.
Proof.
  induction s as [|c s IH]; intros H i Hi.
  - destruct i; discriminate.
  - simpl in H. apply andb_true_iff in H as [Hc H].
    destruct i as [|i].
    + simpl in Hi. inversion Hi; subst c.
      apply orb_true_iff in Hc as [Hc|Hc]; [discriminate|].
      unfold tagAt in Hc. apply existsb_exists in Hc as [t [Ht Hs]].
      apply startsWith_true in Hs as [rest Hrest].
      exists t, rest. split; [exact Ht | exact Hrest].
    + simpl in Hi. simpl. now apply IH.
Qed.

(* ===================================================================== *)
(** ** The renderer: the loop over the lines                              *)
(* ===================================================================== *)

Lemma forEach_app step (l1 l2 : list str) :
  forall i st,
    forEach step i (l1 ++ l2) st =
    forEach step (i + length l1) l2 (forEach step i l1 st).
Proof.
  induction l1 as [|x l1 IH]; intros i st; simpl.
  - now rewrite Nat.add_0_r.
  - rewrite IH. f_equal. lia.
Qed.

Lemma forEach_snoc step (l : list str) (line : str) (st : RenderState) :
  forEach step 0 (l ++ [line]) st =
  step (forEach step 0 l st) (length l) line.
Proof. rewrite forEach_app. reflexivity. Qed.

Lemma forEach_invariant step (I : RenderState -> Prop) (lines : list str) :
  (forall st i line, In line lines -> I st -> I (step st i line)) ->
  forall i st, I st -> I (forEach step i lines st).
Proof.
  induction lines as [|x lines IH]; intros Hstep i st Hst; simpl; [exact Hst|].
  apply IH.
  - intros st' j line Hin. apply Hstep. now right.
  - apply Hstep; [now left | exact Hst].
Qed.

Lemma forEach_ext f g (lines : list str) :
  (forall st i line, In line lines -> f st i line = g st i line) ->
  forall i st, forEach f i lines st = forEach g i lines st.
Proof.
  induction lines as [|x lines IH]; intros H i st; simpl; [reflexivity|].
  rewrite (H st i x (or_introl eq_refl)). apply IH.
  intros st' j line Hin. apply H. now right.
Qed.

(** Splits every conditional of a [step]. *)
Ltac split_step :=
  repeat match goal with
         | |- context [if ?b then _ else _] => destruct b eqn:?
         end.

Lemma Page_step_idle (st : RenderState) (i : nat) (line : str) :
  idle st -> idle (Page.step st i line).
Proof.
  unfold idle, Page.step. intros H.
  split_step; simpl; auto; try discriminate; congruence.
Qed.

Lemma Page_forEach_idle (lines : list str) :
  idle (forEach Page.step 0 lines initState).
Proof.
  apply forEach_invariant.
  - intros st i line _. apply Page_step_idle.
  - intros _. reflexivity.
Qed.

Lemma Page_step_fence_open (st : RenderState) (i : nat) (rest : str) :
  inCodeBlock st = false ->
  Page.step st i (FENCE ++ rest) =
  mkState (elements st) (currentCodeBlock st) true (trim rest).
Proof.
  intros H. unfold Page.step.
  rewrite startsWith_app, H. simpl negb. cbv iota.
  now rewrite (replace_prefix FENCE [] rest).
Qed.

Lemma Page_step_fence_close (st : RenderState) (i : nat) (line : str) :
  inCodeBlock st = true -> startsWith line FENCE = true ->
  Page.step st i line =
  mkState (elements st ++
             [Pre (KeyCode i) (codeClass (codeLanguage st))
                  (join [LF] (currentCodeBlock st))]) [] false [].
Proof. intros H F. unfold Page.step. now rewrite F, H. Qed.

(** Inside a fence every line that is not a fence is pushed as it is. *)
Lemma Page_forEach_inside (body : list str) :
  Forall (fun l => startsWith l FENCE = false) body ->
  forall i els block lang,
    forEach Page.step i body (mkState els block true lang) =
    mkState els (block ++ body) true lang.
Proof.
  induction 1 as [|l body Hl _ IH]; intros i els block lang; simpl.
  - now rewrite app_nil_r.
  - unfold Page.step at 2. rewrite Hl. simpl.
    rewrite IH, <- app_assoc. reflexivity.
Qed.

Lemma Page_finish_elements (st : RenderState) (k : Key) (h : str) :
  In (P k h) (Page.finish st) -> In (P k h) (elements st).
Proof.
  unfold Page.finish.
  destruct (inCodeBlock st && negb (length (currentCodeBlock st) =? 0));
    [|auto].
  intros H. apply in_app_or in H as [H|[H|[]]]; [exact H | discriminate].
Qed.

Lemma Page_paragraphs_escaped (lines : list str) :
  forall k h,
    In (P k h) (elements (forEach Page.step 0 lines initState)) ->
    exists line, In line lines /\ h = inlineMarkup (Page.escapeHtml line).
Proof.
  apply (forEach_invariant Page.step
           (fun st => forall k h, In (P k h) (elements st) ->
              exists line, In line lines /\
                           h = inlineMarkup (Page.escapeHtml line))).
  - intros st i line Hin IH k h. unfold Page.step.
    split_step; simpl; intros H; try (exact (IH k h H));
      apply in_app_or in H as [H|[H|[]]]; try (exact (IH k h H));
      try discriminate.
    inversion H; subst. exists line. split; [exact Hin | reflexivity].
  - intros k h [].
Qed.

(** C1. In page.tsx every paragraph's HTML is [inlineMarkup] of the
    escaped line, and every [<] in it starts one of the four fixed tags
    [<strong>], [</strong>], [<code class="bg-muted px-1.5 py-0.5 rounded
    text-sm">], [</code>]: no other markup of the content reaches the string
    given to dangerouslySetInnerHTML. *)
Theorem C1_paragraph_html_has_only_fixed_tags :
  forall (content : str) (key : Key) (html : str),
    In (P key html) (Page.renderContent content) ->
    (exists line, In line (split LF (trim content)) /\
                  Forall (fun c => c <> LT) (Page.escapeHtml line) /\
                  html = inlineMarkup (Page.escapeHtml line)) /\
    (forall i, nth_error html i = Some LT ->
               exists tag rest, In tag fixedTags /\ skipn i html = tag ++ rest).
Proof.
  intros content key html Hin.
  unfold Page.renderContent, Page.renderLines in Hin.
  apply Page_finish_elements, Page_paragraphs_escaped in Hin.
  destruct Hin as [line [Hl ->]]. split.
  - exists line. repeat split; [exact Hl | apply escapeHtml_noLT].
  - apply onlyFixedTags_positions, inlineMarkup_escapeHtml_onlyFixedTags.
Qed.

Lemma C1_witness :
  (exists line,
      In line (split LF (trim (lit "<img src=x> **b** `c`"))) /\
      Forall (fun c => c <> LT) (Page.escapeHtml line) /\
      lit "&lt;img src=x&gt; <strong>b</strong> " ++ codeOpen ++ lit "c</code>" =
      inlineMarkup (Page.escapeHtml line)) /\
  (forall i,
      nth_error
        (lit "&lt;img src=x&gt; <strong>b</strong> " ++ codeOpen ++
         lit "c</code>") i = Some LT ->
      exists tag rest,
        In tag fixedTags /\
        skipn i (lit "&lt;img src=x&gt; <strong>b</strong> " ++ codeOpen ++
                 lit "c</code>") = tag ++ rest).
Proof.
  apply (C1_paragraph_html_has_only_fixed_tags
           (lit "<img src=x> **b** `c`") (KeyIndex 0)).
  vm_compute. left. reflexivity.
Defined.

(** The element list only grows: a step, the rest of the loop and the
    flush after the loop keep what has been pushed and push behind it. *)
Lemma Page_step_extends (st : RenderState) (i : nat) (line : str) :
  exists more, elements (Page.step st i line) = elements st ++ more.
Proof.
  unfold Page.step.
  split_step; cbn [elements];
    first [ eexists; reflexivity
          | exists []; symmetry; apply app_nil_r ].
Qed.

Lemma Page_forEach_extends (lines : list str) :
  forall (i : nat) (st : RenderState),
    exists more, elements (forEach Page.step i lines st) = elements st ++ more.
Proof.
  induction lines as [|line lines IH]; intros i st.
  - exists []. simpl. symmetry. apply app_nil_r.
  - cbn [forEach].
    destruct (IH (S i) (Page.step st i line)) as [more2 H2].
    destruct (Page_step_extends st i line) as [more1 H1].
    exists (more1 ++ more2). rewrite H2, H1. apply eq_sym, app_assoc.
Qed.

Lemma Page_finish_extends (st : RenderState) :
  exists more, Page.finish st = elements st ++ more.
Proof.
  unfold Page.finish.
  destruct (inCodeBlock st && negb (length (currentCodeBlock st) =? 0)).
  - eexists. reflexivity.
  - exists []. symmetry. apply app_nil_r.
Qed.

(** C4. page.tsx's renderContent walks the lines of the trimmed content in
    order. A line starting with three backticks toggles the fence. Outside a
    fence: [# ], [## ] and [### ] give an h1, h2 and h3 whose text is the
    rest of the line, escaped; [---] gives a separator; a line whose trim is
    empty gives nothing; every other line gives exactly one paragraph. Each
    construct adds exactly one entry to the element list, and the list
    renderContent returns starts with the elements pushed up to and
    including the line: what a line yields is in the result, at its place. *)
Theorem C4_lines_are_classified_by_prefix :
  forall (content : str) (pre : list str) (line : str) (post : list str),
    split LF (trim content) = pre ++ line :: post ->
    let st := forEach Page.step 0 pre initState in
    let st' := forEach Page.step 0 (pre ++ [line]) initState in
    let index := length pre in
    Page.renderContent content =
      Page.finish (forEach Page.step (S index) post st') /\
    (exists after, Page.renderContent content = elements st' ++ after) /\
    (startsWith line FENCE = true ->
       inCodeBlock st' = negb (inCodeBlock st)) /\
    (inCodeBlock st = false ->
       (startsWith line FENCE = true -> elements st' = elements st) /\
       (forall r, line = lit "# " ++ r ->
          st' = mkState (elements st ++
                           [H1 (KeyIndex index) (Page.escapeHtml r)])
                        [] false (codeLanguage st)) /\
       (forall r, line = lit "## " ++ r ->
          st' = mkState (elements st ++
                           [H2 (KeyIndex index) (Page.escapeHtml r)])
                        [] false (codeLanguage st)) /\
       (forall r, line = lit "### " ++ r ->
          st' = mkState (elements st ++
                           [H3 (KeyIndex index) (Page.escapeHtml r)])
                        [] false (codeLanguage st)) /\
       (startsWith line (lit "---") = true ->
          st' = mkState (elements st ++ [SeparatorEl (KeyIndex index)])
                        [] false (codeLanguage st)) /\
       (startsWith line FENCE = false ->
        startsWith line (lit "# ") = false ->
        startsWith line (lit "## ") = false ->
        startsWith line (lit "### ") = false ->
        startsWith line (lit "---") = false ->
          (trim line = [] -> st' = st) /\
          (trim line <> [] ->
             st' = mkState (elements st ++
                              [P (KeyIndex index)
                                 (inlineMarkup (Page.escapeHtml line))])
                           [] false (codeLanguage st)))).
Proof.
  intros content pre line post Hlines st st' index.
  assert (Hst' : st' = Page.step st index line).
  { unfold st', st, index. apply forEach_snoc. }
  assert (Hrender : Page.renderContent content =
                    Page.finish (forEach Page.step (S index) post st')).
  { unfold Page.renderContent, Page.renderLines. rewrite Hlines.
    rewrite forEach_app. cbn [forEach Nat.add].
    fold st. rewrite Hst'. reflexivity. }
  split; [|split; [|split]].
  - exact Hrender.
  - destruct (Page_finish_extends (forEach Page.step (S index) post st'))
      as [flushed Hf].
    destruct (Page_forEach_extends post (S index) st') as [more Hm].
    exists (more ++ flushed). rewrite Hrender, Hf, Hm.
    apply eq_sym, app_assoc.
  - intros F. rewrite Hst'. unfold Page.step. rewrite F.
    destruct (inCodeBlock st); reflexivity.
  - intros Hout.
    assert (Hblock : currentCodeBlock st = []).
    { apply (Page_forEach_idle pre). exact Hout. }
    rewrite Hst'. unfold Page.step. rewrite Hout.
    split; [|split; [|split; [|split; [|split]]]].
    + intros F. rewrite F. reflexivity.
    + intros r ->. rewrite (replace_prefix (lit "# ") [] r), Hblock.
      reflexivity.
    + intros r ->. rewrite (replace_prefix (lit "## ") [] r), Hblock.
      reflexivity.
    + intros r ->. rewrite (replace_prefix (lit "### ") [] r), Hblock.
      reflexivity.
    + intros F. rewrite F, Hblock.
      apply startsWith_true in F as [r ->]. reflexivity.
    + intros F1 F2 F3 F4 F5. rewrite F1, F2, F3, F4, F5. split; intros E.
      * rewrite E. reflexivity.
      * apply str_eqb_neq in E. rewrite E, Hblock. reflexivity.
Qed.

Lemma C4_witness :
  split LF (trim (lit "intro
# A <b>
---")) = [lit "intro"] ++ lit "# A <b>" :: [lit "---"] /\
  forEach Page.step 0 ([lit "intro"] ++ [lit "# A <b>"]) initState =
  mkState [P (KeyIndex 0) (lit "intro"); H1 (KeyIndex 1) (lit "A &lt;b&gt;")]
          [] false [] /\
  exists after,
    Page.renderContent (lit "intro
# A <b>
---") =
    [P (KeyIndex 0) (lit "intro"); H1 (KeyIndex 1) (lit "A &lt;b&gt;")]
    ++ after.
Proof.
  split; [reflexivity|].
  destruct (C4_lines_are_classified_by_prefix
              (lit "intro
# A <b>
---") [lit "intro"] (lit "# A <b>") [lit "---"] eq_refl)
    as (_ & [after Hafter] & _ & H).
  destruct (H eq_refl) as (_ & Hh1 & _).
  split; [exact (Hh1 (lit "A <b>") eq_refl)|].
  exists after. rewrite Hafter.
  exact (f_equal (fun st' => elements st' ++ after)
                 (Hh1 (lit "A <b>") eq_refl)).
Defined.

Lemma Forall_firstn_keep {A : Type} (Q : A -> Prop) (k : nat) (l : list A) :
  Forall Q l -> Forall Q (firstn k l).
Proof.
  intros H; revert k; induction H as [|x l Hx _ IH]; intros [|k]; simpl;
    constructor; auto.
Qed.

(** C5. From a line that opens a fence to the next line starting with
    three backticks, every line, whatever it looks like, is pushed
    unchanged onto the pending block; the closing line emits them as one
    code block, joined with newlines, whose class carries the trimmed text
    that followed the opening backticks, and resets the fence state. *)
Theorem C5_fence_accumulates_verbatim :
  forall (content : str) (pre : list str) (lang : str) (body : list str)
         (closing : str) (post : list str),
    split LF (trim content) =
      pre ++ (FENCE ++ lang) :: body ++ closing :: post ->
    inCodeBlock (forEach Page.step 0 pre initState) = false ->
    Forall (fun l => startsWith l FENCE = false) body ->
    startsWith closing FENCE = true ->
    let st := forEach Page.step 0 pre initState in
    let closed :=
      mkState (elements st ++
                 [Pre (KeyCode (length pre + 1 + length body))
                      (codeClass (trim lang)) (join [LF] body)])
              [] false [] in
    (forall k, k <= length body ->
       forEach Page.step 0 (pre ++ (FENCE ++ lang) :: firstn k body) initState
       = mkState (elements st) (firstn k body) true (trim lang)) /\
    forEach Page.step 0 (pre ++ (FENCE ++ lang) :: body ++ [closing]) initState
      = closed /\
    Page.renderContent content =
      Page.finish
        (forEach Page.step (length pre + 1 + length body + 1) post closed).
Proof.
  intros content pre lang body closing post Hlines Hout Hbody Hclose st closed.
  assert (Hblock : currentCodeBlock st = []).
  { apply (Page_forEach_idle pre). exact Hout. }
  assert (Hinside : forall b, Forall (fun l => startsWith l FENCE = false) b ->
            forEach Page.step 0 (pre ++ (FENCE ++ lang) :: b) initState
            = mkState (elements st) b true (trim lang)).
  { intros b Hb. rewrite forEach_app. cbn [forEach]. fold st.
    rewrite (Page_step_fence_open st _ lang Hout), Hblock.
    now rewrite (Page_forEach_inside b Hb). }
  assert (Hclosed :
            forEach Page.step 0 (pre ++ (FENCE ++ lang) :: body ++ [closing])
                    initState = closed).
  { rewrite forEach_app. cbn [forEach]. fold st.
    rewrite (Page_step_fence_open st _ lang Hout), Hblock.
    rewrite forEach_app, (Page_forEach_inside body Hbody). cbn [forEach].
    rewrite Page_step_fence_close; [|reflexivity|exact Hclose].
    unfold closed. simpl.
    replace (S (length pre + length body))
      with (length pre + 1 + length body) by lia.
    reflexivity. }
  split; [|split].
  - intros k _. apply Hinside, Forall_firstn_keep, Hbody.
  - exact Hclosed.
  - unfold Page.renderContent, Page.renderLines. rewrite Hlines.
    replace (pre ++ (FENCE ++ lang) :: body ++ closing :: post)
      with ((pre ++ (FENCE ++ lang) :: body ++ [closing]) ++ post).
    + rewrite forEach_app, Hclosed. f_equal. f_equal.
      rewrite length_app. simpl. rewrite length_app. simpl. lia.
    + rewrite <- !app_assoc. simpl. rewrite <- app_assoc. reflexivity.
Qed.

Lemma C5_witness :
  Page.renderContent (lit "```ts 
# x
<b> **y**

```
end") =
  [Pre (KeyCode 4) (lit "language-ts text-sm") (lit "# x
<b> **y**
");
   P (KeyIndex 5) (lit "end")].
Proof.
  destruct (C5_fence_accumulates_verbatim
              (lit "```ts 
# x
<b> **y**

```
end") [] (lit "ts ") [lit "# x"; lit "<b> **y**"; []] (lit "```")
              [lit "end"] eq_refl eq_refl) as (_ & _ & H).
  - repeat constructor.
  - reflexivity.
  - exact H.
Defined.

(** C8. When the content ends inside a fence that was opened and never
    closed, the lines pushed so far are emitted as one last code block
    (key [code-end]); with no line pushed, nothing is emitted for it. *)
Theorem C8_unclosed_fence_is_flushed :
  forall (content : str) (pre : list str) (lang : str) (body : list str),
    split LF (trim content) = pre ++ (FENCE ++ lang) :: body ->
    inCodeBlock (forEach Page.step 0 pre initState) = false ->
    Forall (fun l => startsWith l FENCE = false) body ->
    Page.renderContent content =
      elements (forEach Page.step 0 pre initState) ++
      match body with
      | [] => []
      | _ :: _ => [Pre KeyCodeEnd (codeClass (trim lang)) (join [LF] body)]
      end.
Proof.
  intros content pre lang body Hlines Hout Hbody.
  unfold Page.renderContent, Page.renderLines. rewrite Hlines.
  rewrite forEach_app. cbn [forEach].
  rewrite (Page_step_fence_open _ _ lang Hout).
  rewrite (Page_forEach_idle pre Hout).
  rewrite (Page_forEach_inside body Hbody).
  unfold Page.finish. cbn [inCodeBlock currentCodeBlock elements codeLanguage].
  destruct body as [|l body]; simpl.
  - now rewrite app_nil_r.
  - reflexivity.
Qed.

Lemma C8_witness :
  Page.renderContent (lit "# t
```js
a < b
c") =
  [H1 (KeyIndex 0) (lit "t")] ++
  [Pre KeyCodeEnd (lit "language-js text-sm") (lit "a < b
c")] /\
  Page.renderContent (lit "# t
```js") = [H1 (KeyIndex 0) (lit "t")] ++ [].
Proof.
  split.
  - apply (C8_unclosed_fence_is_flushed
             (lit "# t
```js
a < b
c") [lit "# t"] (lit "js") [lit "a < b"; lit "c"] eq_refl eq_refl).
    repeat constructor.
  - apply (C8_unclosed_fence_is_flushed
             (lit "# t
```js") [lit "# t"] (lit "js") [] eq_refl eq_refl).
    constructor.
Defined.

(* ===================================================================== *)
(** ** The two copies of the renderer                                     *)
(* ===================================================================== *)

Lemma Forall_dropWhile (Q : char -> Prop) (f : char -> bool) (s : str) :
  Forall Q s -> Forall Q (dropWhile f s).
Proof.
  induction 1 as [|c s Hc Hs IH]; simpl; [constructor|].
  destruct (f c); [exact IH | now constructor].
Qed.

Lemma Forall_trim (Q : char -> Prop) (s : str) :
  Forall Q s -> Forall Q (trim s).
Proof.
  intros H. unfold trim, trimEnd, trimStart.
  apply Forall_rev, Forall_dropWhile, Forall_rev, Forall_dropWhile, H.
Qed.

Lemma Forall_split (Q : char -> Prop) (sep : char) (s : str) :
  Forall Q s -> Forall (Forall Q) (split sep s).
Proof.
  induction 1 as [|c s Hc Hs IH]; simpl; [repeat constructor|].
  destruct (N.eqb c sep); [constructor; [constructor | exact IH]|].
  destruct (split sep s) as [|l ls]; [repeat constructor; exact Hc|].
  inversion IH; subst. constructor; [now constructor | assumption].
Qed.

Lemma Forall_replace_erase (Q : char -> Prop) (pat s : str) :
  Forall Q s -> Forall Q (replace pat [] s).
Proof.
  induction 1 as [|c s Hc Hs IH].
  - simpl. destruct (stripPrefix pat []) as [r|] eqn:E; [|constructor].
    apply stripPrefix_Some in E. symmetry in E.
    apply app_eq_nil in E as [_ ->]. constructor.
  - simpl. destruct (stripPrefix pat (c :: s)) as [r|] eqn:E.
    + apply stripPrefix_Some in E.
      assert (H : Forall Q (pat ++ r)) by (rewrite <- E; now constructor).
      apply Forall_app in H as [_ H]. exact H.
    + now constructor.
Qed.

Lemma escapeHtml_plain (s : str) :
  Forall (fun c => needsEscape c = false) s -> Page.escapeHtml s = s.
Proof.
  intros H. unfold Page.escapeHtml.
  assert (A : forall c, needsEscape c = true -> ~ In c s).
  { intros c Hc Hin. rewrite Forall_forall in H. specialize (H c Hin).
    congruence. }
  rewrite (replaceChar_absent AMP _ s) by (apply A; reflexivity).
  rewrite (replaceChar_absent LT _ s) by (apply A; reflexivity).
  rewrite (replaceChar_absent GT _ s) by (apply A; reflexivity).
  rewrite (replaceChar_absent QUOT _ s) by (apply A; reflexivity).
  apply replaceChar_absent, A. reflexivity.
Qed.

Lemma Page_finish_pending (st : RenderState) :
  Page.finish st = elements st ++ pendingBlock st.
Proof.
  unfold Page.finish, pendingBlock.
  destruct (inCodeBlock st && negb (length (currentCodeBlock st) =? 0));
    [reflexivity | now rewrite app_nil_r].
Qed.

(** The two callbacks do the same on a line that page.tsx would not
    change by escaping or trimming. *)
Lemma steps_agree (st : RenderState) (i : nat) (line : str) :
  (inCodeBlock st = false -> startsWith line FENCE = false -> plain line) ->
  (inCodeBlock st = false -> startsWith line FENCE = true ->
   languageTrimmed line) ->
  Page.step st i line = Part001.step st i line.
Proof.
  intros Hplain Hfence. unfold Page.step, Part001.step.
  destruct (startsWith line FENCE) eqn:F.
  - destruct (inCodeBlock st) eqn:B; [reflexivity|].
    simpl negb. cbv iota. now rewrite (Hfence eq_refl eq_refl).
  - destruct (inCodeBlock st) eqn:B; [reflexivity|].
    specialize (Hplain eq_refl eq_refl).
    rewrite !escapeHtml_plain;
      try (apply Forall_replace_erase); try exact Hplain.
    reflexivity.
Qed.

Lemma Part001_step_inCodeBlock (st : RenderState) (i : nat) (line : str) :
  inCodeBlock (Part001.step st i line) =
  if startsWith line FENCE then negb (inCodeBlock st) else inCodeBlock st.
Proof.
  unfold Part001.step.
  destruct (startsWith line FENCE); destruct (inCodeBlock st) eqn:B;
    try reflexivity.
  split_step; simpl; try reflexivity; exact B.
Qed.

Lemma loops_agree (lines : list str) :
  forall (i : nat) (st : RenderState),
    Forall plain (outsideFences (inCodeBlock st) lines) ->
    Forall languageTrimmed (fenceOpenings (inCodeBlock st) lines) ->
    forEach Page.step i lines st = forEach Part001.step i lines st.
Proof.
  induction lines as [|line lines IH]; intros i st Hplain Hfence;
    [reflexivity|].
  cbn [forEach].
  assert (Hstep : Page.step st i line = Part001.step st i line).
  { apply steps_agree; intros B F; simpl in Hplain, Hfence;
      rewrite F, B in *.
    - now inversion Hplain.
    - now inversion Hfence. }
  rewrite Hstep. apply IH; rewrite Part001_step_inCodeBlock;
    simpl in Hplain, Hfence;
    destruct (startsWith line FENCE); destruct (inCodeBlock st);
      simpl; try assumption.
  - now inversion Hplain.
  - now inversion Hfence.
Qed.

(** The claim that both copies render every content alike fails on a line
    with a character that page.tsx escapes. *)
Lemma C2_counterexample :
  Page.renderContent (lit "a<b") = [P (KeyIndex 0) (lit "a&lt;b")] /\
  Part001.renderContent (lit "a<b") = [P (KeyIndex 0) (lit "a<b")] /\
  Page.renderContent (lit "a<b") <> Part001.renderContent (lit "a<b").
Proof. repeat split. vm_compute. discriminate. Qed.

(** The copies also differ in the class of a code block whose language is
    surrounded by white space, and in the block of an unclosed fence. *)
Example copies_differ_on_fence_language :
  Page.renderContent (lit "``` ts
x
```") = [Pre (KeyCode 2) (lit "language-ts text-sm") (lit "x")] /\
  Part001.renderContent (lit "``` ts
x
```") = [Pre (KeyCode 2) (lit "language- ts text-sm") (lit "x")].
Proof. split; reflexivity. Qed.

Example copies_differ_on_unclosed_fence :
  Page.renderContent (lit "```ts
x") = [Pre KeyCodeEnd (lit "language-ts text-sm") (lit "x")] /\
  Part001.renderContent (lit "```ts
x") = [].
Proof. split; reflexivity. Qed.

(** C2, amended. On content in which no line outside a code fence holds
    one of the characters [&], [<], [>], double quote and ['], and in which
    the text after the backticks of every line that opens a fence has no
    white space at either end, page.tsx renders what part_001 renders,
    followed by the one code block that only page.tsx emits for a fence left
    open with lines in it; when the content does not end inside a fence,
    both render the same sequence. *)
Theorem C2_copies_agree_on_plain_content :
  forall content : str,
    Forall plain (outsideFences false (split LF (trim content))) ->
    Forall languageTrimmed (fenceOpenings false (split LF (trim content))) ->
    let final := forEach Part001.step 0 (split LF (trim content)) initState in
    Page.renderContent content =
      Part001.renderContent content ++ pendingBlock final /\
    (inCodeBlock final = false ->
     Page.renderContent content = Part001.renderContent content).
Proof.
  intros content Hplain Hfence final.
  assert (Hsame : forEach Page.step 0 (split LF (trim content)) initState
                  = final).
  { apply loops_agree; assumption. }
  assert (Heq : Page.renderContent content =
                Part001.renderContent content ++ pendingBlock final).
  { unfold Page.renderContent, Page.renderLines.
    rewrite Page_finish_pending, Hsame. reflexivity. }
  split; [exact Heq|].
  intros Hout. rewrite Heq. unfold pendingBlock. rewrite Hout.
  apply app_nil_r.
Qed.

Lemma C2_witness :
  Page.renderContent (lit "# Title
some **bold** text
```ts
if (a < b && c) { s = 'x' }
```") =
  Part001.renderContent (lit "# Title
some **bold** text
```ts
if (a < b && c) { s = 'x' }
```").
Proof.
  refine (proj2 (C2_copies_agree_on_plain_content
                   (lit "# Title
some **bold** text
```ts
if (a < b && c) { s = 'x' }
```") _ _) eq_refl).
  - vm_compute outsideFences.
    repeat (apply Forall_cons; [repeat constructor|]). apply Forall_nil.
  - vm_compute fenceOpenings.
    repeat (apply Forall_cons; [vm_compute; reflexivity|]). apply Forall_nil.
Defined.

(* ===================================================================== *)
(** ** blog-data.ts: looking a post up                                    *)
(* ===================================================================== *)

Lemma find_slug_none (blogPosts : Store) (s : str) :
  (forall post, In post blogPosts -> slug post <> s) ->
  find (fun post => str_eqb (slug post) s) blogPosts = None.
Proof.
  induction blogPosts as [|p l IH]; simpl; intros H; [reflexivity|].
  destruct (str_eqb (slug p) s) eqn:E.
  - apply str_eqb_eq in E. exfalso. exact (H p (or_introl eq_refl) E).
  - apply IH. intros q Hq. apply H. now right.
Qed.

(** [find] returns the first element with the slug. *)
Lemma find_slug_first (blogPosts : Store) (s : str) (post : BlogPost) :
  In post blogPosts -> slug post = s ->
  exists found before after,
    find (fun post => str_eqb (slug post) s) blogPosts = Some found /\
    slug found = s /\
    blogPosts = before ++ found :: after /\
    (forall q, In q before -> slug q <> s).
Proof.
  induction blogPosts as [|p l IH]; simpl; intros Hin Hs; [contradiction|].
  destruct (str_eqb (slug p) s) eqn:E.
  - apply str_eqb_eq in E. exists p, [], l. repeat split; auto.
  - apply str_eqb_neq in E. destruct Hin as [->|Hin]; [contradiction|].
    destruct (IH Hin Hs) as (found & before & after & Hf & Hsl & -> & Hb).
    exists found, (p :: before), after. repeat split; auto.
    intros q [<-|Hq]; [exact E | now apply Hb].
Qed.

Lemma unique_slug (before after : list BlogPost) (found post : BlogPost) :
  NoDup (map slug (before ++ found :: after)) ->
  In post (before ++ found :: after) -> slug post = slug found ->
  (forall q, In q before -> slug q <> slug found) ->
  post = found.
Proof.
  intros Hnd Hin Hs Hb.
  apply in_app_or in Hin as [Hin|[Hin|Hin]].
  - exfalso. exact (Hb post Hin Hs).
  - now symmetry.
  - exfalso. rewrite map_app in Hnd. simpl in Hnd.
    apply NoDup_remove_2 in Hnd. apply Hnd, in_or_app. right.
    rewrite <- Hs. now apply in_map.
Qed.

(** C3. A slug that no post has: getPostBySlug returns undefined,
    BlogPostPage calls notFound() and renders no article, generateMetadata
    returns the metadata with title [Post Not Found] and nothing else. A
    slug that some post has: getPostBySlug returns the first post with that
    slug (that very post when slugs are not repeated), BlogPostPage renders
    its article, generateMetadata carries its title. *)
Theorem C3_missing_slug_is_not_found :
  forall (blogPosts : Store) (s : str),
    ((forall post, In post blogPosts -> slug post <> s) ->
       fst (getPostBySlug blogPosts s) = None /\
       fst (Page.BlogPostPage blogPosts s) = Page.NotFound /\
       fst (Page.generateMetadata blogPosts s) =
         Page.mkMetadata (lit "Post Not Found") None None None None None) /\
    (forall post, In post blogPosts -> slug post = s ->
       exists found,
         fst (getPostBySlug blogPosts s) = Some found /\
         In found blogPosts /\ slug found = s /\
         (NoDup (map slug blogPosts) -> found = post) /\
         (exists related,
             fst (Page.BlogPostPage blogPosts s) =
             Page.Rendered found (Page.renderContent (content found))
                           related) /\
         Page.md_title (fst (Page.generateMetadata blogPosts s)) =
           title found).
Proof.
  intros blogPosts s. split.
  - intros Hnone. pose proof (find_slug_none blogPosts s Hnone) as Hf.
    unfold Page.BlogPostPage, Page.generateMetadata, getPostBySlug.
    simpl. rewrite Hf. repeat split.
  - intros post Hin Hs.
    destruct (find_slug_first blogPosts s post Hin Hs)
      as (found & before & after & Hf & Hsl & Hsplit & Hb).
    exists found.
    unfold Page.BlogPostPage, Page.generateMetadata, getPostBySlug.
    simpl. rewrite Hf. repeat split.
    + rewrite Hsplit. apply in_or_app. right. now left.
    + exact Hsl.
    + intros Hnd. symmetry. rewrite Hsplit in Hnd, Hin.
      apply (unique_slug before after found post Hnd Hin).
      * congruence.
      * intros q Hq. rewrite Hsl. now apply Hb.
    + eexists. reflexivity.
Qed.

Lemma C3_witness :
  (fst (getPostBySlug (blogPosts (fun _ => lit "# Hello")) (lit "no-such-post"))
     = None /\
   fst (Page.BlogPostPage (blogPosts (fun _ => lit "# Hello"))
                          (lit "no-such-post")) = Page.NotFound /\
   fst (Page.generateMetadata (blogPosts (fun _ => lit "# Hello"))
                              (lit "no-such-post")) =
     Page.mkMetadata (lit "Post Not Found") None None None None None) /\
  (exists found,
      fst (getPostBySlug (blogPosts (fun _ => lit "# Hello"))
                         (lit "web-performance-optimization-guide"))
        = Some found /\
      slug found = lit "web-performance-optimization-guide" /\
      date found = lit "2024-11-20").
Proof.
  pose proof (C3_missing_slug_is_not_found
                (blogPosts (fun _ => lit "# Hello"))) as H.
  split.
  - apply (proj1 (H (lit "no-such-post"))).
    intros post Hin.
    repeat (destruct Hin as [<-|Hin]; [discriminate|]). destruct Hin.
  - destruct (proj2 (H (lit "web-performance-optimization-guide"))
                (nth 4 (blogPosts (fun _ => lit "# Hello"))
                     (mkPost [] [] [] [] [] [] [] [] None []))) as [found Hf].
    + simpl. tauto.
    + reflexivity.
    + exists found. destruct Hf as (Hget & Hin & Hs & Hu & _).
      repeat split; [exact Hget | exact Hs |].
      rewrite (Hu ltac:(repeat constructor; simpl; intuition discriminate)).
      reflexivity.
Defined.

(* ===================================================================== *)
(** ** blog-data.ts: sorting                                              *)
(* ===================================================================== *)

Section SortFacts.
Context {A : Type} (comparefn : A -> A -> option Z).

Lemma insertSorted_Permutation (x : A) (l : list A) :
  Permutation (x :: l) (insertSorted comparefn x l).
Proof.
  induction l as [|y l IH]; simpl; [reflexivity|].
  destruct (sortCompare comparefn x y <=? 0)%Z; [reflexivity|].
  rewrite perm_swap. now constructor.
Qed.

Lemma sort_Permutation (l : list A) : Permutation l (sort comparefn l).
Proof.
  induction l as [|x l IH]; simpl; [constructor|].
  rewrite <- insertSorted_Permutation. now constructor.
Qed.

Lemma insertSorted_HdRel (x y : A) (l : list A) :
  inOrder comparefn y x -> HdRel (inOrder comparefn) y l ->
  HdRel (inOrder comparefn) y (insertSorted comparefn x l).
Proof.
  intros Hyx Hl. destruct l as [|z l]; simpl; [now constructor|].
  destruct (sortCompare comparefn x z <=? 0)%Z; [now constructor|].
  inversion Hl; subst. now constructor.
Qed.

(** Insertion keeps a sorted list sorted when any two elements that are
    compared are in order one way or the other. *)
Lemma insertSorted_Sorted (x : A) (l : list A) :
  (forall y, In y l -> ~ inOrder comparefn x y -> inOrder comparefn y x) ->
  Sorted (inOrder comparefn) l ->
  Sorted (inOrder comparefn) (insertSorted comparefn x l).
Proof.
  intros Htot Hs. induction Hs as [|y l Hs IH Hhd]; simpl.
  - repeat constructor.
  - destruct (sortCompare comparefn x y <=? 0)%Z eqn:E.
    + constructor; [now constructor|]. constructor. now apply Z.leb_le.
    + assert (Hyx : inOrder comparefn y x).
      { apply Htot; [now left|]. unfold inOrder.
        apply Z.leb_gt in E. lia. }
      constructor.
      * apply IH. intros z Hz. apply Htot. now right.
      * now apply insertSorted_HdRel.
Qed.

Lemma sort_Sorted (l : list A) :
  (forall x y, In x l -> In y l ->
               ~ inOrder comparefn x y -> inOrder comparefn y x) ->
  Sorted (inOrder comparefn) (sort comparefn l).
Proof.
  induction l as [|x l IH]; simpl; intros Htot; [constructor|].
  apply insertSorted_Sorted.
  - intros y Hy. apply Htot; [now left | right].
    apply (Permutation_in _ (Permutation_sym (sort_Permutation l))). exact Hy.
  - apply IH. intros a b Ha Hb. apply Htot; now right.
Qed.

(** Sorting an array that is in order already writes every element back
    to its place. *)
Lemma sort_of_Sorted (l : list A) :
  Sorted (inOrder comparefn) l -> sort comparefn l = l.
Proof.
  induction 1 as [|x l Hs IH Hhd]; simpl; [reflexivity|].
  rewrite IH. destruct Hhd as [|y l' Hxy]; simpl; [reflexivity|].
  apply Z.leb_le in Hxy. now rewrite Hxy.
Qed.

End SortFacts.

Lemma Sorted_adjacent {A : Type} (R : A -> A -> Prop) (l : list A) :
  Sorted R l ->
  forall i a b, nth_error l i = Some a -> nth_error l (S i) = Some b -> R a b.
Proof.
  induction 1 as [|x l Hs IH Hhd]; intros i a b Ha Hb.
  - destruct i; discriminate.
  - destruct i as [|i].
    + simpl in Ha, Hb. inversion Ha; subst.
      destruct Hhd as [|y l' Hxy]; [discriminate|].
      simpl in Hb. inversion Hb; subst. exact Hxy.
    + simpl in Ha. exact (IH i a b Ha Hb).
Qed.

Lemma byDateDesc_timed (a b : BlogPost) (ta tb : Z) :
  getTime (date a) = Some ta -> getTime (date b) = Some tb ->
  sortCompare byDateDesc a b = (tb - ta)%Z.
Proof.
  intros Ha Hb. unfold sortCompare, byDateDesc. now rewrite Ha, Hb.
Qed.

Lemma inOrder_notOlder (a b : BlogPost) :
  getTime (date a) <> None -> getTime (date b) <> None ->
  (inOrder byDateDesc a b <-> notOlder a b).
Proof.
  intros Ha Hb.
  destruct (getTime (date a)) as [ta|] eqn:Ea; [|congruence].
  destruct (getTime (date b)) as [tb|] eqn:Eb; [|congruence].
  unfold inOrder, notOlder. rewrite (byDateDesc_timed a b ta tb Ea Eb), Ea, Eb.
  split.
  - intros H. exists ta, tb. repeat split. lia.
  - intros (ta' & tb' & H1 & H2 & H). inversion H1; inversion H2; subst. lia.
Qed.

(** C9. getAllPosts returns a permutation of blogPosts, which is the
    array blogPosts itself as the sort left it; when every date is a time
    value, each post of the result is dated no earlier than the one after
    it. *)
Theorem C9_getAllPosts_newest_first :
  forall store : Store,
    Permutation store (fst (getAllPosts store)) /\
    snd (getAllPosts store) = fst (getAllPosts store) /\
    (Forall (fun p => getTime (date p) <> None) store ->
     forall i a b,
       nth_error (fst (getAllPosts store)) i = Some a ->
       nth_error (fst (getAllPosts store)) (S i) = Some b ->
       notOlder a b).
Proof.
  intros store. unfold getAllPosts. cbn [fst snd].
  split; [apply sort_Permutation | split; [reflexivity|]].
  intros Hvalid. rewrite Forall_forall in Hvalid.
  assert (Hsorted : Sorted (inOrder byDateDesc) (sort byDateDesc store)).
  { apply sort_Sorted. intros x y Hx Hy Hn.
    destruct (getTime (date x)) as [tx|] eqn:Ex;
      [|exfalso; exact (Hvalid x Hx Ex)].
    destruct (getTime (date y)) as [ty|] eqn:Ey;
      [|exfalso; exact (Hvalid y Hy Ey)].
    unfold inOrder in *.
    rewrite (byDateDesc_timed x y tx ty Ex Ey) in Hn.
    rewrite (byDateDesc_timed y x ty tx Ey Ex). lia. }
  intros i a b Ha Hb.
  assert (Hin : forall p, In p (sort byDateDesc store) ->
                          getTime (date p) <> None).
  { intros p Hp. apply Hvalid.
    exact (Permutation_in _ (Permutation_sym (sort_Permutation _ store)) Hp). }
  apply inOrder_notOlder.
  - apply Hin. exact (nth_error_In _ _ Ha).
  - apply Hin. exact (nth_error_In _ _ Hb).
  - exact (Sorted_adjacent _ _ Hsorted i a b Ha Hb).
Qed.

Lemma C9_witness :
  map date (fst (getAllPosts (blogPosts (fun _ => [])))) =
    [lit "2024-12-01"; lit "2024-11-28"; lit "2024-11-25"; lit "2024-11-22";
     lit "2024-11-20"; lit "2024-11-18"; lit "2024-11-15"] /\
  forall i a b,
    nth_error (fst (getAllPosts (blogPosts (fun _ => [])))) i = Some a ->
    nth_error (fst (getAllPosts (blogPosts (fun _ => [])))) (S i) = Some b ->
    notOlder a b.
Proof.
  split; [reflexivity|].
  apply (proj2 (proj2 (C9_getAllPosts_newest_first
                         (blogPosts (fun _ => []))))).
  repeat (apply Forall_cons; [vm_compute; discriminate|]). apply Forall_nil.
Defined.

(* ===================================================================== *)
(** ** blog-data.ts: the array after the helpers                          *)
(* ===================================================================== *)

(** getAllPosts sorts the array it is given: an array that is not in
    newest-first order is reordered by the call. *)
Example getAllPosts_reorders_an_unsorted_array :
  let older := mkPost (lit "a") [] [] [] [] (lit "2024-01-01") [] [] None [] in
  let newer := mkPost (lit "b") [] [] [] [] (lit "2024-06-01") [] [] None [] in
  snd (getAllPosts [older; newer]) = [newer; older].
Proof. reflexivity. Qed.

(** An array in newest-first order is left as it is. *)
Lemma getAllPosts_keeps_sorted_array (store : Store) :
  Sorted (inOrder byDateDesc) store -> snd (getAllPosts store) = store.
Proof. intros H. unfold getAllPosts. cbn [snd]. now apply sort_of_Sorted. Qed.

(** The literal of blog-data.ts is written newest first. *)
Lemma blogPosts_newest_first (contentOf : nat -> str) :
  Sorted (inOrder byDateDesc) (blogPosts contentOf).
Proof.
  unfold blogPosts.
  repeat (apply Sorted_cons;
          [|first [apply HdRel_nil
                  | apply HdRel_cons; vm_compute; discriminate]]).
  apply Sorted_nil.
Qed.

Lemma callHelper_keeps_sorted_array (toLowerCase : str -> str)
    (c : HelperCall) (store : Store) :
  Sorted (inOrder byDateDesc) store ->
  snd (callHelper toLowerCase c store) = store.
Proof.
  intros H. destruct c; try reflexivity.
  unfold callHelper.
  pose proof (getAllPosts_keeps_sorted_array store H) as E.
  destruct (getAllPosts store) as [r st]. exact E.
Qed.

(** C6. Each of getAllPosts, getPostBySlug, getPostsByTag and getAllTags
    leaves the array blogPosts with the same elements in the same order, so
    does any sequence of such calls, and a call made after such a sequence
    returns what it returns on the array as written. getAllPosts does sort
    the array in place; the literal is already in the order the sort
    produces. *)
Theorem C6_helpers_leave_blogPosts_unchanged :
  forall (toLowerCase : str -> str) (contentOf : nat -> str)
         (c : HelperCall) (calls : list HelperCall),
    snd (callHelper toLowerCase c (blogPosts contentOf))
      = blogPosts contentOf /\
    afterCalls toLowerCase calls (blogPosts contentOf)
      = blogPosts contentOf /\
    fst (callHelper toLowerCase c
           (afterCalls toLowerCase calls (blogPosts contentOf)))
      = fst (callHelper toLowerCase c (blogPosts contentOf)).
Proof.
  intros toLowerCase contentOf c calls.
  pose proof (blogPosts_newest_first contentOf) as Hs.
  assert (Hcalls : afterCalls toLowerCase calls (blogPosts contentOf)
                   = blogPosts contentOf).
  { unfold afterCalls. induction calls as [|c' calls IH]; [reflexivity|].
    simpl. rewrite (callHelper_keeps_sorted_array toLowerCase c' _ Hs).
    exact IH. }
  split; [|split].
  - now apply callHelper_keeps_sorted_array.
  - exact Hcalls.
  - now rewrite Hcalls.
Qed.

(* ===================================================================== *)
(** ** blog-data.ts: posts by tag                                         *)
(* ===================================================================== *)

Lemma existsb_tag_spec (toLowerCase : str -> str) (tag : str) (post : BlogPost) :
  existsb (fun t => str_eqb (toLowerCase t) (toLowerCase tag)) (tags post)
    = true <->
  hasTagIgnoringCase toLowerCase tag post.
Proof.
  unfold hasTagIgnoringCase. rewrite existsb_exists.
  split; intros [t [Hin H]]; exists t; (split; [exact Hin|]);
    now apply str_eqb_eq.
Qed.

Lemma filter_Selected {A : Type} (Q : A -> Prop) (f : A -> bool) (l : list A) :
  (forall x, f x = true <-> Q x) -> Selected Q l (filter f l).
Proof.
  intros H. induction l as [|x l IH]; simpl; [constructor|].
  destruct (f x) eqn:E.
  - apply Selected_keep; [now apply H | exact IH].
  - apply Selected_skip; [|exact IH]. intros HQ. apply H in HQ. congruence.
Qed.

Lemma asciiLowerCase_idempotent (s : str) :
  asciiLowerCase (asciiLowerCase s) = asciiLowerCase s.
Proof.
  unfold asciiLowerCase. rewrite map_map. apply map_ext. intros c.
  destruct (N.leb 65 c && N.leb c 90) eqn:E; [|now rewrite E].
  apply andb_true_iff in E as [E1 E2].
  apply N.leb_le in E1, E2.
  assert (H : N.leb (c + 32) 90 = false) by (apply N.leb_gt; lia).
  now rewrite H, andb_false_r.
Qed.

(** C10. getPostsByTag returns exactly the posts of blogPosts that have a
    tag equal to the given one once both are lowercased, in the order of the
    array; so the tag and its lowercasing select the same posts
    (lowercasing a lowercased string changes nothing). *)
Theorem C10_getPostsByTag_ignores_case :
  forall (toLowerCase : str -> str) (store : Store) (tag : str),
    Selected (hasTagIgnoringCase toLowerCase tag) store
             (fst (getPostsByTag toLowerCase store tag)) /\
    snd (getPostsByTag toLowerCase store tag) = store /\
    ((forall s, toLowerCase (toLowerCase s) = toLowerCase s) ->
     fst (getPostsByTag toLowerCase store tag) =
     fst (getPostsByTag toLowerCase store (toLowerCase tag))).
Proof.
  intros toLowerCase store tag. unfold getPostsByTag. cbn [fst snd].
  split; [|split; [reflexivity|]].
  - apply filter_Selected. intros post. apply existsb_tag_spec.
  - intros Hidem. apply filter_ext. intros post.
    now rewrite Hidem.
Qed.

Lemma C10_witness :
  map slug (fst (getPostsByTag asciiLowerCase (blogPosts (fun _ => []))
                               (lit "FRONTEND"))) =
    [lit "mastering-react-hooks-frontend-development";
     lit "web-performance-optimization-guide";
     lit "react-performance-optimization-techniques"] /\
  fst (getPostsByTag asciiLowerCase (blogPosts (fun _ => [])) (lit "FRONTEND"))
  = fst (getPostsByTag asciiLowerCase (blogPosts (fun _ => []))
                       (asciiLowerCase (lit "FRONTEND"))).
Proof.
  split; [reflexivity|].
  exact (proj2 (proj2 (C10_getPostsByTag_ignores_case
                         asciiLowerCase (blogPosts (fun _ => []))
                         (lit "FRONTEND")))
               asciiLowerCase_idempotent).
Defined.

(* ===================================================================== *)
(** ** escapeHtml, character by character                                 *)
(* ===================================================================== *)

Lemma replaceChar_app (c : char) (rep a b : str) :
  replaceChar c rep (a ++ b) = replaceChar c rep a ++ replaceChar c rep b.
Proof. unfold replaceChar. apply flat_map_app. Qed.

Lemma escapeHtml_app (a b : str) :
  Page.escapeHtml (a ++ b) = Page.escapeHtml a ++ Page.escapeHtml b.
Proof. unfold Page.escapeHtml. now rewrite !replaceChar_app. Qed.

Lemma escapeHtml_one (c : char) : Page.escapeHtml [c] = escapeChar c.
Proof.
  unfold Page.escapeHtml, escapeChar, replaceChar.
  cbn [flat_map]. rewrite app_nil_r.
  destruct (N.eqb_spec c AMP) as [->|H1]; [reflexivity|].
  cbn [flat_map]. rewrite app_nil_r.
  destruct (N.eqb_spec c LT) as [->|H2]; [reflexivity|].
  cbn [flat_map]. rewrite app_nil_r.
  destruct (N.eqb_spec c GT) as [->|H3]; [reflexivity|].
  cbn [flat_map]. rewrite app_nil_r.
  destruct (N.eqb_spec c QUOT) as [->|H4]; [reflexivity|].
  cbn [flat_map]. rewrite app_nil_r.
  destruct (N.eqb_spec c APOS) as [->|H5]; reflexivity.
Qed.

Lemma escapeHtml_cons (c : char) (s : str) :
  Page.escapeHtml (c :: s) = escapeChar c ++ Page.escapeHtml s.
Proof.
  change (c :: s) with ([c] ++ s). now rewrite escapeHtml_app, escapeHtml_one.
Qed.

(** X1. The five successive replacements of escapeHtml amount to one pass
    that rewrites each code unit on its own: the ampersands written for
    [<], [>], the double quote and ['] are not escaped a second time, and
    escaping distributes over concatenation. *)
Theorem X1_escapeHtml_is_one_pass :
  forall s t : str,
    Page.escapeHtml s = flat_map escapeChar s /\
    Page.escapeHtml (s ++ t) = Page.escapeHtml s ++ Page.escapeHtml t.
Proof.
  intros s t. split; [|apply escapeHtml_app].
  induction s as [|c s IH]; [reflexivity|].
  rewrite escapeHtml_cons, IH. reflexivity.
Qed.

(** The shapes [escapeChar] takes. *)
Lemma escapeChar_cases (c : char) :
  (c = AMP /\ escapeChar c = lit "&amp;") \/
  (c = LT /\ escapeChar c = lit "&lt;") \/
  (c = GT /\ escapeChar c = lit "&gt;") \/
  (c = QUOT /\ escapeChar c = lit "&quot;") \/
  (c = APOS /\ escapeChar c = lit "&#039;") \/
  (needsEscape c = false /\ escapeChar c = [c]).
Proof.
  unfold escapeChar, needsEscape.
  destruct (N.eqb_spec c AMP); [now left|right].
  destruct (N.eqb_spec c LT); [now left|right].
  destruct (N.eqb_spec c GT); [now left|right].
  destruct (N.eqb_spec c QUOT); [now left|right].
  destruct (N.eqb_spec c APOS); [now left|right].
  split; reflexivity.
Qed.

Lemma startsOnly_app (c0 : char) (pats : list str) (a b : str) :
  startsOnly c0 pats a = true -> startsOnly c0 pats b = true ->
  startsOnly c0 pats (a ++ b) = true.
Proof.
  induction a as [|c a IH]; simpl; intros Ha Hb; [exact Hb|].
  apply andb_true_iff in Ha as [Hc Ha].
  apply andb_true_iff; split; [|now apply IH].
  apply orb_true_iff in Hc as [Hc|Hc]; apply orb_true_iff; [now left|right].
  rewrite existsb_exists in *. destruct Hc as [t [Ht Hs]].
  exists t. split; [exact Ht|].
  exact (startsWith_weaken (c :: a) t b Hs).
Qed.

Lemma startsOnly_positions (c0 : char) (pats : list str) (s : str) :
  startsOnly c0 pats s = true ->
  forall i, nth_error s i = Some c0 ->
            exists pat rest, In pat pats /\ skipn i s = pat ++ rest.
Proof.
  induction s as [|c s IH]; intros H i Hi.
  - destruct i; discriminate.
  - simpl in H. apply andb_true_iff in H as [Hc H].
    destruct i as [|i].
    + simpl in Hi. inversion Hi; subst c.
      apply orb_true_iff in Hc as [Hc|Hc].
      * rewrite N.eqb_refl in Hc. discriminate.
      * apply existsb_exists in Hc as [t [Ht Hs]].
        apply startsWith_true in Hs as [rest Hrest].
        exists t, rest. split; [exact Ht | exact Hrest].
    + simpl in Hi. simpl. now apply IH.
Qed.

Lemma escapeHtml_startsOnly (s : str) :
  startsOnly AMP entities (Page.escapeHtml s) = true.
Proof.
  induction s as [|c s IH]; [reflexivity|].
  rewrite escapeHtml_cons. apply startsOnly_app; [|exact IH].
  destruct (escapeChar_cases c)
    as [[_ ->]|[[_ ->]|[[_ ->]|[[_ ->]|[[_ ->]|[Hn ->]]]]]];
    try reflexivity.
  simpl. unfold needsEscape in Hn.
  destruct (N.eqb c AMP); [discriminate | reflexivity].
Qed.

Lemma escapeHtml_Forall (Q : char -> Prop) (s : str) :
  (forall e, In e entities -> Forall Q e) -> Forall Q s ->
  Forall Q (Page.escapeHtml s).
Proof.
  intros He. induction 1 as [|c s Hc _ IH]; [constructor|].
  rewrite escapeHtml_cons. apply Forall_app; split; [|exact IH].
  destruct (escapeChar_cases c)
    as [[_ ->]|[[_ ->]|[[_ ->]|[[_ ->]|[[_ ->]|[_ ->]]]]]];
    try (apply He; simpl; tauto).
  now constructor.
Qed.

Lemma escapeHtml_safe_chars (s : str) :
  Forall (fun c => c <> LT /\ c <> GT /\ c <> QUOT /\ c <> APOS)
         (Page.escapeHtml s).
Proof.
  induction s as [|c s IH]; [constructor|].
  rewrite escapeHtml_cons. apply Forall_app; split; [|exact IH].
  destruct (escapeChar_cases c)
    as [[_ ->]|[[_ ->]|[[_ ->]|[[_ ->]|[[_ ->]|[Hn ->]]]]]];
    try (repeat constructor; discriminate).
  constructor; [|constructor]. unfold needsEscape in Hn.
  repeat (apply orb_false_iff in Hn as [Hn ?]).
  repeat split; apply N.eqb_neq; assumption.
Qed.

(** X2. What escapeHtml returns holds no [<], no [>], no double quote and
    no [']; and every [&] in it starts one of the five entities [&amp;],
    [&lt;], [&gt;], [&quot;], [&#039;]. *)
Theorem X2_escapeHtml_output_is_inert :
  forall s : str,
    Forall (fun c => c <> LT /\ c <> GT /\ c <> QUOT /\ c <> APOS)
           (Page.escapeHtml s) /\
    (forall i, nth_error (Page.escapeHtml s) i = Some AMP ->
       exists entity rest,
         In entity entities /\
         skipn i (Page.escapeHtml s) = entity ++ rest).
Proof.
  intros s. split; [apply escapeHtml_safe_chars|].
  apply startsOnly_positions, escapeHtml_startsOnly.
Qed.

(** X3. escapeHtml loses nothing: two strings with the same escaped form
    are the same string. *)
Theorem X3_escapeHtml_is_injective :
  forall a b : str, Page.escapeHtml a = Page.escapeHtml b -> a = b.
Proof.
  induction a as [|x a IH]; intros [|y b] H.
  - reflexivity.
  - rewrite escapeHtml_cons in H. exfalso.
    destruct (escapeChar_cases y)
      as [[_ E]|[[_ E]|[[_ E]|[[_ E]|[[_ E]|[_ E]]]]]];
      rewrite E in H; discriminate.
  - rewrite escapeHtml_cons in H. exfalso.
    destruct (escapeChar_cases x)
      as [[_ E]|[[_ E]|[[_ E]|[[_ E]|[[_ E]|[_ E]]]]]];
      rewrite E in H; discriminate.
  - rewrite !escapeHtml_cons in H.
    destruct (escapeChar_cases x)
      as [[Hx Ex]|[[Hx Ex]|[[Hx Ex]|[[Hx Ex]|[[Hx Ex]|[Hx Ex]]]]]];
    destruct (escapeChar_cases y)
      as [[Hy Ey]|[[Hy Ey]|[[Hy Ey]|[[Hy Ey]|[[Hy Ey]|[Hy Ey]]]]]];
      rewrite Ex, Ey in H; simpl in H; inversion H; subst;
      try discriminate; try (f_equal; now apply IH).
Qed.

Lemma X3_witness :
  lit "a<" ++ lit "b & c" = lit "a<b &" ++ lit " c".
Proof.
  apply (X3_escapeHtml_is_injective
           (lit "a<" ++ lit "b & c") (lit "a<b &" ++ lit " c")).
  reflexivity.
Defined.

(* ===================================================================== *)
(** ** The renderer: blank content, keys, counts                          *)
(* ===================================================================== *)

Lemma dropWhile_all (f : char -> bool) (s : str) :
  Forall (fun c => f c = true) s -> dropWhile f s = [].
Proof.
  induction 1 as [|c s Hc _ IH]; simpl; [reflexivity|]. now rewrite Hc.
Qed.

Lemma trim_blank (s : str) :
  Forall (fun c => isWhiteSpace c = true) s -> trim s = [].
Proof.
  intros H. unfold trim, trimStart, trimEnd.
  rewrite (dropWhile_all _ _ H). reflexivity.
Qed.

(** X5. Content made of white space only (the empty string included)
    renders to no element at all, in both copies of the renderer. *)
Theorem X5_blank_content_renders_nothing :
  forall content : str,
    Forall (fun c => isWhiteSpace c = true) content ->
    Page.renderContent content = [] /\ Part001.renderContent content = [].
Proof.
  intros content H.
  unfold Page.renderContent, Part001.renderContent.
  rewrite (trim_blank content H). split; reflexivity.
Qed.

Lemma X5_witness :
  Page.renderContent (lit "  
	 
") = [] /\
  Part001.renderContent (lit "  
	 
") = [].
Proof.
  apply (X5_blank_content_renders_nothing (lit "  
	 
")).
  repeat constructor.
Defined.

(** An invariant that may mention the index of the next line. *)
Lemma forEach_invariant_indexed step (I : nat -> RenderState -> Prop)
    (lines : list str) :
  (forall st i line, I i st -> I (S i) (step st i line)) ->
  forall i st, I i st -> I (i + length lines) (forEach step i lines st).
Proof.
  intros Hstep. induction lines as [|x lines IH]; intros i st Hst; simpl.
  - now rewrite Nat.add_0_r.
  - replace (i + S (length lines)) with (S i + length lines) by lia.
    apply IH, Hstep, Hst.
Qed.

Lemma NoDup_snoc {A : Type} (l : list A) (x : A) :
  NoDup l -> ~ In x l -> NoDup (l ++ [x]).
Proof.
  induction 1 as [|y l Hy Hl IH]; simpl; intros Hx.
  - constructor; [intros [] | constructor].
  - constructor.
    + intros Hin. apply in_app_or in Hin as [Hin|[<-|[]]]; [now apply Hy|].
      apply Hx. now left.
    + apply IH. intros Hin. apply Hx. now right.
Qed.

Lemma keysBelow_push (i : nat) (st : RenderState) (e : Element)
    (block : list str) (b : bool) (lang : str) :
  keysBelow i st -> keyOf e = KeyIndex i \/ keyOf e = KeyCode i ->
  keysBelow (S i) (mkState (elements st ++ [e]) block b lang).
Proof.
  intros [Hnd Hlt] He. unfold keysBelow. cbn [elements].
  rewrite map_app. cbn [map]. split.
  - apply NoDup_snoc; [exact Hnd|]. intros Hin.
    destruct (Hlt _ Hin) as [j [Hj Hkj]].
    destruct He as [He|He]; rewrite He in Hkj;
      destruct Hkj as [E|E]; inversion E; lia.
  - intros k Hk. apply in_app_or in Hk as [Hk|[<-|[]]].
    + destruct (Hlt k Hk) as [j [Hj Hkj]]. exists j. split; [lia|exact Hkj].
    + exists i. split; [lia|exact He].
Qed.

Lemma keysBelow_keep (i : nat) (st : RenderState)
    (block : list str) (b : bool) (lang : str) :
  keysBelow i st -> keysBelow (S i) (mkState (elements st) block b lang).
Proof.
  intros [Hnd Hlt]. split; [exact Hnd|]. cbn [elements].
  intros k Hk. destruct (Hlt k Hk) as [j [Hj Hkj]].
  exists j. split; [lia|exact Hkj].
Qed.

Lemma keysBelow_next (i : nat) (st : RenderState) :
  keysBelow i st -> keysBelow (S i) st.
Proof.
  intros [Hnd Hlt]. split; [exact Hnd|].
  intros k Hk. destruct (Hlt k Hk) as [j [Hj Hkj]].
  exists j. split; [lia|exact Hkj].
Qed.

Lemma Page_step_keysBelow (st : RenderState) (i : nat) (line : str) :
  keysBelow i st -> keysBelow (S i) (Page.step st i line).
Proof.
  intros H. unfold Page.step.
  split_step;
    first [ apply keysBelow_push; [exact H | simpl; tauto]
          | apply keysBelow_keep; exact H
          | apply keysBelow_next; exact H ].
Qed.

(** X6. The React keys of the elements renderContent returns are pairwise
    distinct. *)
Theorem X6_element_keys_are_distinct :
  forall content : str, NoDup (map keyOf (Page.renderContent content)).
Proof.
  intros content. unfold Page.renderContent, Page.renderLines.
  pose proof (forEach_invariant_indexed Page.step keysBelow
                (split LF (trim content)) Page_step_keysBelow 0 initState)
    as H.
  destruct H as [Hnd Hlt].
  { split; [constructor | intros k []]. }
  rewrite Page_finish_pending. unfold pendingBlock.
  destruct (inCodeBlock _ && _); [|now rewrite app_nil_r].
  rewrite map_app. apply NoDup_snoc; [exact Hnd|].
  intros Hin. destruct (Hlt _ Hin) as [j [_ [E|E]]]; discriminate.
Qed.

(** Each line read so far gave at most one element, and an open fence has
    not given its element yet. *)
Lemma Page_step_count (st : RenderState) (i : nat) (line : str) :
  length (elements st) + (if inCodeBlock st then 1 else 0) <= i ->
  length (elements (Page.step st i line)) +
  (if inCodeBlock (Page.step st i line) then 1 else 0) <= S i.
Proof.
  unfold Page.step.
  destruct (inCodeBlock st) eqn:B;
    split_step; cbn [elements inCodeBlock negb] in *;
    rewrite ?length_app, ?B; simpl; try discriminate; lia.
Qed.

(** X7. renderContent returns at most one element per line of the trimmed
    content. *)
Theorem X7_at_most_one_element_per_line :
  forall content : str,
    length (Page.renderContent content) <= length (split LF (trim content)).
Proof.
  intros content. unfold Page.renderContent, Page.renderLines.
  pose proof (forEach_invariant_indexed Page.step
                (fun i st => length (elements st) +
                             (if inCodeBlock st then 1 else 0) <= i)
                (split LF (trim content)) Page_step_count 0 initState) as H.
  cbn beta in H. specialize (H (Nat.le_refl _)). simpl in H.
  rewrite Page_finish_pending. unfold pendingBlock. rewrite length_app.
  destruct (inCodeBlock _); simpl in *; [|lia].
  destruct (negb _); simpl; lia.
Qed.

Lemma Page_headings_escaped (lines : list str) :
  forall e text,
    In e (elements (forEach Page.step 0 lines initState)) ->
    isHeading e text ->
    exists r, text = Page.escapeHtml r.
Proof.
  apply (forEach_invariant Page.step
           (fun st => forall e text, In e (elements st) -> isHeading e text ->
                                     exists r, text = Page.escapeHtml r)).
  - intros st i line _ IH e text. unfold Page.step.
    split_step; simpl; intros H Hh; try (exact (IH e text H Hh));
      apply in_app_or in H as [H|[<-|[]]]; try (exact (IH e text H Hh));
      destruct Hh as [k [E|[E|E]]]; inversion E; subst; eauto.
  - intros e text [].
Qed.

(** X8. The text of every heading renderContent returns is an escaped
    string: it holds no [<], no [>], no double quote and no [']. *)
Theorem X8_heading_text_is_escaped :
  forall (content : str) (e : Element) (text : str),
    In e (Page.renderContent content) -> isHeading e text ->
    Forall (fun c => c <> LT /\ c <> GT /\ c <> QUOT /\ c <> APOS) text.
Proof.
  intros content e text Hin Hh.
  unfold Page.renderContent, Page.renderLines in Hin.
  rewrite Page_finish_pending in Hin.
  apply in_app_or in Hin as [Hin|Hin].
  - destruct (Page_headings_escaped _ e text Hin Hh) as [r ->].
    apply escapeHtml_safe_chars.
  - exfalso. unfold pendingBlock in Hin.
    destruct (inCodeBlock _ && _); [|destruct Hin].
    destruct Hin as [<-|[]]. destruct Hh as [k [E|[E|E]]]; discriminate.
Qed.

Lemma X8_witness :
  Forall (fun c => c <> LT /\ c <> GT /\ c <> QUOT /\ c <> APOS)
         (lit "A &lt;script&gt; &amp; &#039;B&#039;").
Proof.
  apply (X8_heading_text_is_escaped
           (lit "intro
## A <script> & 'B'")
           (H2 (KeyIndex 1) (lit "A &lt;script&gt; &amp; &#039;B&#039;"))).
  - vm_compute. right. left. reflexivity.
  - exists (KeyIndex 1). right. left. reflexivity.
Defined.

Lemma countPre_app (a b : list Element) :
  countPre (a ++ b) = countPre a + countPre b.
Proof. unfold countPre. now rewrite filter_app, length_app. Qed.

(** Code blocks and the open fence account for the fence lines read. *)
Lemma Page_step_fences (st : RenderState) (i : nat) (line : str) :
  2 * countPre (elements (Page.step st i line)) +
  (if inCodeBlock (Page.step st i line) then 1 else 0) =
  2 * countPre (elements st) + (if inCodeBlock st then 1 else 0) +
  (if startsWith line FENCE then 1 else 0).
Proof.
  unfold Page.step.
  destruct (startsWith line FENCE); destruct (inCodeBlock st) eqn:B;
    split_step; cbn [elements inCodeBlock negb] in *;
    rewrite ?countPre_app, ?B; try discriminate; unfold countPre; simpl;
    lia.
Qed.

Lemma Page_forEach_fences (lines : list str) :
  forall i st,
    2 * countPre (elements (forEach Page.step i lines st)) +
    (if inCodeBlock (forEach Page.step i lines st) then 1 else 0) =
    2 * countPre (elements st) + (if inCodeBlock st then 1 else 0) +
    countFences lines.
Proof.
  induction lines as [|line lines IH]; intros i st.
  - simpl. unfold countFences. simpl. lia.
  - cbn [forEach]. rewrite IH, Page_step_fences.
    unfold countFences. simpl.
    destruct (startsWith line FENCE); simpl; lia.
Qed.

(** X9. Fence lines pair up: renderContent returns one code block for every
    two lines starting with three backticks, and at most one more for a last,
    unpaired one; the fence is open after the last line exactly when their
    number is odd. *)
Theorem X9_fence_lines_pair_up :
  forall content : str,
    let lines := split LF (trim content) in
    let n := countFences lines in
    let blocks := countPre (Page.renderContent content) in
    inCodeBlock (forEach Page.step 0 lines initState) = Nat.odd n /\
    2 * blocks <= n + 1 /\
    n <= 2 * blocks + 1 /\
    (Nat.even n = true -> 2 * blocks = n).
Proof.
  intros content lines n blocks.
  assert (H : 2 * countPre (elements (forEach Page.step 0 lines initState)) +
              (if inCodeBlock (forEach Page.step 0 lines initState)
               then 1 else 0) = n).
  { rewrite (Page_forEach_fences lines 0 initState). reflexivity. }
  assert (Hb : blocks =
               countPre (elements (forEach Page.step 0 lines initState)) +
               countPre (pendingBlock (forEach Page.step 0 lines initState))).
  { unfold blocks, Page.renderContent, Page.renderLines. fold lines.
    now rewrite Page_finish_pending, countPre_app. }
  assert (Hp : countPre (pendingBlock (forEach Page.step 0 lines initState))
               <= if inCodeBlock (forEach Page.step 0 lines initState)
                  then 1 else 0).
  { unfold pendingBlock, countPre.
    destruct (inCodeBlock (forEach Page.step 0 lines initState)); simpl.
    - destruct (negb _); simpl; lia.
    - lia. }
  destruct (inCodeBlock (forEach Page.step 0 lines initState)) eqn:B.
  - assert (Ho : Nat.odd n = true).
    { apply Nat.odd_spec.
      exists (countPre (elements (forEach Page.step 0 lines initState))).
      lia. }
    repeat split; try lia; [now rewrite Ho|].
    intros He. rewrite <- Nat.negb_odd, Ho in He. discriminate.
  - assert (He : Nat.even n = true).
    { apply Nat.even_spec.
      exists (countPre (elements (forEach Page.step 0 lines initState))).
      lia. }
    repeat split; try lia.
    rewrite <- Nat.negb_even, He. reflexivity.
Qed.

Lemma steps_inStep (a b : RenderState) (i : nat) (line : str) :
  inStep a b -> inStep (Page.step a i line) (Part001.step b i line).
Proof.
  intros (Hf & Hb & He). unfold inStep, Page.step, Part001.step.
  rewrite <- Hf.
  destruct (startsWith line FENCE); [destruct (negb (inCodeBlock a))|];
    [ | | destruct (inCodeBlock a) eqn:Ba;
          [|destruct (startsWith line (lit "# "));
            [|destruct (startsWith line (lit "## "));
              [|destruct (startsWith line (lit "### "));
                [|destruct (startsWith line (lit "---"));
                  [|destruct (str_eqb (trim line) [])]]]]]];
    cbn [inCodeBlock currentCodeBlock elements];
    rewrite ?map_app, ?He, ?Hb; cbn [map skeleton]; auto;
    repeat split; congruence.
Qed.

Lemma loops_inStep (lines : list str) :
  forall i a b,
    inStep a b ->
    inStep (forEach Page.step i lines a) (forEach Part001.step i lines b).
Proof.
  induction lines as [|line lines IH]; intros i a b H; [exact H|].
  cbn [forEach]. apply IH, steps_inStep, H.
Qed.

(** X12. On every content the two copies of the renderer return the same
    kinds of elements with the same keys in the same order, and code blocks
    with the same text; they can differ only in the text of headings, the
    HTML of paragraphs, the class of a code block, and in the one block
    page.tsx adds for a fence left open. *)
Theorem X12_copies_share_their_skeleton :
  forall content : str,
    map skeleton (Page.renderContent content) =
    map skeleton (Part001.renderContent content) ++
    map skeleton
        (pendingBlock (forEach Page.step 0 (split LF (trim content)) initState)).
Proof.
  intros content.
  unfold Page.renderContent, Page.renderLines,
    Part001.renderContent, Part001.renderLines.
  rewrite Page_finish_pending, map_app. f_equal.
  apply (loops_inStep (split LF (trim content)) 0 initState initState).
  repeat split.
Qed.

(* ===================================================================== *)
(** ** White space around the content                                     *)
(* ===================================================================== *)

Lemma dropWhile_app_all (f : char -> bool) (ws s : str) :
  Forall (fun c => f c = true) ws -> dropWhile f (ws ++ s) = dropWhile f s.
Proof.
  induction 1 as [|c ws Hc _ IH]; simpl; [reflexivity|]. now rewrite Hc.
Qed.

Lemma trimEnd_app_all (s ws : str) :
  Forall (fun c => isWhiteSpace c = true) ws -> trimEnd (s ++ ws) = trimEnd s.
Proof.
  intros H. unfold trimEnd. rewrite rev_app_distr.
  rewrite dropWhile_app_all; [reflexivity|]. now apply Forall_rev.
Qed.

Lemma dropWhile_app_some (f : char -> bool) (s t : str) :
  dropWhile f s <> [] -> dropWhile f (s ++ t) = dropWhile f s ++ t.
Proof.
  induction s as [|c s IH]; simpl; [congruence|].
  destruct (f c); [exact IH | reflexivity].
Qed.

Lemma dropWhile_nil_all (f : char -> bool) (s : str) :
  dropWhile f s = [] -> Forall (fun c => f c = true) s.
Proof.
  induction s as [|c s IH]; simpl; [constructor|].
  destruct (f c) eqn:E; [|discriminate]. intros H. constructor; auto.
Qed.

Lemma trim_padded (before content after : str) :
  Forall (fun c => isWhiteSpace c = true) before ->
  Forall (fun c => isWhiteSpace c = true) after ->
  trim (before ++ content ++ after) = trim content.
Proof.
  intros Hb Ha. unfold trim, trimStart.
  rewrite (dropWhile_app_all _ before _ Hb).
  destruct (dropWhile isWhiteSpace content) as [|c s] eqn:E.
  - apply dropWhile_nil_all in E.
    rewrite dropWhile_all; [reflexivity|].
    apply Forall_app. split; assumption.
  - rewrite dropWhile_app_some by (rewrite E; discriminate).
    rewrite E. now apply trimEnd_app_all.
Qed.

(** X4. White space before and after the content (the line breaks and the
    indentation around the template literals of blog-data.ts) never shows:
    renderContent returns the same elements with and without it. *)
Theorem X4_surrounding_white_space_is_ignored :
  forall before content after : str,
    Forall (fun c => isWhiteSpace c = true) before ->
    Forall (fun c => isWhiteSpace c = true) after ->
    Page.renderContent (before ++ content ++ after)
    = Page.renderContent content.
Proof.
  intros before content after Hb Ha. unfold Page.renderContent.
  now rewrite trim_padded.
Qed.

Lemma X4_witness :
  Page.renderContent (lit "
" ++ lit "# Title" ++ lit "
    ") = Page.renderContent (lit "# Title").
Proof.
  apply X4_surrounding_white_space_is_ignored; repeat constructor.
Defined.

(* ===================================================================== *)
(** ** The inline substitutions                                           *)
(* ===================================================================== *)

Lemma matchHere_absent (d : char) (delim s : str) :
  ~ In d s -> matchHere (d :: delim) s = None.
Proof.
  intros H. unfold matchHere. destruct s as [|c s]; [reflexivity|].
  simpl. destruct (N.eqb_spec d c) as [->|_]; [|reflexivity].
  exfalso. apply H. now left.
Qed.

(** Without the first character of the delimiter there is no match. *)
Lemma exec_absent (d : char) (delim s : str) :
  ~ In d s -> exec (d :: delim) s = None.
Proof.
  induction s as [|c s IH]; intros H.
  - reflexivity.
  - cbn [exec]. rewrite (matchHere_absent d delim (c :: s) H).
    rewrite IH; [reflexivity|]. intros Hin. apply H. now right.
Qed.

Lemma replaceGroup_absent (d : char) (delim open close s : str) :
  ~ In d s -> replaceGroup (d :: delim) open close s = s.
Proof.
  intros H. rewrite replaceGroup_unfold. now rewrite exec_absent.
Qed.

Lemma inlineMarkup_without_markers (s : str) :
  ~ In STAR s -> ~ In BACKTICK s -> inlineMarkup s = s.
Proof.
  intros Hs Hb. unfold inlineMarkup.
  rewrite (replaceGroup_absent STAR [STAR] _ _ s Hs).
  apply replaceGroup_absent. exact Hb.
Qed.

Lemma stripPrefix_absent (d : char) (delim s : str) :
  match s with c :: _ => c <> d | [] => True end ->
  stripPrefix (d :: delim) s = None.
Proof.
  destruct s as [|c s]; [reflexivity|]. simpl. intros H.
  destruct (N.eqb_spec d c) as [->|_]; [congruence | reflexivity].
Qed.

(** The lazy group stops at the first delimiter when the group holds
    neither the delimiter's first character nor a line terminator. *)
Lemma lazyGroup_found (d : char) (delim g post : str) :
  g <> [] -> ~ In d g -> Forall (fun c => isLineTerminator c = false) g ->
  lazyGroup (d :: delim) (g ++ (d :: delim) ++ post) = Some (g, post).
Proof.
  remember ((d :: delim) ++ post) as tail eqn:Etail.
  induction g as [|c g IH]; intros Hne Hd Hlt; [congruence|].
  apply Forall_cons_iff in Hlt as [Hc Hg].
  cbn [lazyGroup app]. rewrite Hc.
  destruct g as [|c' g].
  - cbn [app]. rewrite Etail, (stripPrefix_app (d :: delim) post).
    reflexivity.
  - rewrite stripPrefix_absent.
    + rewrite IH; [reflexivity | discriminate | | exact Hg].
      intros Hin. apply Hd. now right.
    + cbn [app]. intros ->. apply Hd. right. now left.
Qed.

Lemma exec_found (d : char) (delim pre g post : str) :
  ~ In d pre -> g <> [] -> ~ In d g ->
  Forall (fun c => isLineTerminator c = false) g ->
  exec (d :: delim) (pre ++ (d :: delim) ++ g ++ (d :: delim) ++ post)
  = Some (pre, g, post).
Proof.
  intros Hpre Hne Hd Hlt.
  assert (M : matchHere (d :: delim)
                ((d :: delim) ++ g ++ (d :: delim) ++ post)
              = Some (g, post)).
  { unfold matchHere. rewrite stripPrefix_app. now apply lazyGroup_found. }
  remember ((d :: delim) ++ g ++ (d :: delim) ++ post) as tail eqn:Etail.
  induction pre as [|c pre IH].
  - cbn [app]. destruct tail; cbn [exec]; rewrite M; reflexivity.
  - cbn [app exec].
    assert (Mfail : matchHere (d :: delim) (c :: pre ++ tail) = None).
    { unfold matchHere. rewrite stripPrefix_absent; [reflexivity|].
      intros ->. apply Hpre. now left. }
    rewrite Mfail, IH; [reflexivity|]. intros Hin. apply Hpre. now right.
Qed.

(** One marked span in a string that holds no other marker. *)
Lemma replaceGroup_one_span (d : char) (delim open close pre g post : str) :
  ~ In d pre -> g <> [] -> ~ In d g -> ~ In d post ->
  Forall (fun c => isLineTerminator c = false) g ->
  replaceGroup (d :: delim) open close
               (pre ++ (d :: delim) ++ g ++ (d :: delim) ++ post)
  = pre ++ open ++ g ++ close ++ post.
Proof.
  intros Hpre Hne Hd Hpost Hlt.
  rewrite replaceGroup_unfold, exec_found by assumption.
  now rewrite replaceGroup_absent.
Qed.

Lemma not_In_app {A : Type} (x : A) (a b : list A) :
  ~ In x a -> ~ In x b -> ~ In x (a ++ b).
Proof. intros Ha Hb H. apply in_app_or in H as [H|H]; auto. Qed.

Lemma escapeHtml_keeps_out (x : char) (s : str) :
  (forall e, In e entities -> ~ In x e) -> ~ In x s ->
  ~ In x (Page.escapeHtml s).
Proof.
  intros He Hs Hin.
  assert (F : Forall (fun c => c <> x) (Page.escapeHtml s)).
  { apply escapeHtml_Forall.
    - intros e Hin'. apply Forall_forall. intros c Hc ->.
      exact (He e Hin' Hc).
    - apply Forall_forall. intros c Hc ->. exact (Hs Hc). }
  rewrite Forall_forall in F. exact (F x Hin eq_refl).
Qed.

Lemma entities_without (x : char) :
  forallb (fun e => negb (existsb (N.eqb x) e)) entities = true ->
  forall e, In e entities -> ~ In x e.
Proof.
  intros H e He Hin. rewrite forallb_forall in H. specialize (H e He).
  apply negb_true_iff in H.
  assert (existsb (N.eqb x) e = true); [|congruence].
  apply existsb_exists. exists x. split; [exact Hin | apply N.eqb_refl].
Qed.

Lemma escapeHtml_nonempty (s : str) : s <> [] -> Page.escapeHtml s <> [].
Proof.
  destruct s as [|c s]; [congruence|]. intros _.
  rewrite escapeHtml_cons.
  destruct (escapeChar_cases c)
    as [[_ ->]|[[_ ->]|[[_ ->]|[[_ ->]|[[_ ->]|[_ ->]]]]]]; discriminate.
Qed.

Lemma escapeHtml_no_line_terminator (s : str) :
  Forall (fun c => isLineTerminator c = false) s ->
  Forall (fun c => isLineTerminator c = false) (Page.escapeHtml s).
Proof.
  apply escapeHtml_Forall. intros e He.
  repeat (destruct He as [<-|He]; [repeat constructor|]). destruct He.
Qed.

(** X11. A paragraph line [pre**g**post] or [pre`g`post], where [pre], [g]
    and [post] hold no asterisk and no backtick and [g] is a non-empty run
    without line terminators, becomes the escaped [pre], the escaped [g]
    wrapped in [<strong>] or in the [<code>] tag, and the escaped [post]. *)
Theorem X11_marked_span_is_wrapped :
  forall pre g post : str,
    ~ In STAR pre -> ~ In BACKTICK pre ->
    ~ In STAR g -> ~ In BACKTICK g ->
    ~ In STAR post -> ~ In BACKTICK post ->
    g <> [] -> Forall (fun c => isLineTerminator c = false) g ->
    inlineMarkup (Page.escapeHtml (pre ++ [STAR; STAR] ++ g ++
                                   [STAR; STAR] ++ post))
      = Page.escapeHtml pre ++ strongOpen ++ Page.escapeHtml g ++
        strongClose ++ Page.escapeHtml post /\
    inlineMarkup (Page.escapeHtml (pre ++ [BACKTICK] ++ g ++
                                   [BACKTICK] ++ post))
      = Page.escapeHtml pre ++ codeOpen ++ Page.escapeHtml g ++
        codeClose ++ Page.escapeHtml post.
Proof.
  intros pre g post Hsp Hbp Hsg Hbg Hso Hbo Hne Hlt.
  pose proof (entities_without STAR eq_refl) as ES.
  pose proof (entities_without BACKTICK eq_refl) as EB.
  assert (Tags : forall t, In t [strongOpen; strongClose; codeOpen; codeClose]
                           -> ~ In STAR t /\ ~ In BACKTICK t).
  { intros t Ht.
    repeat (destruct Ht as [<-|Ht];
            [split; intros H; vm_compute in H; intuition discriminate|]).
    destruct Ht. }
  unfold inlineMarkup. rewrite !escapeHtml_app.
  change (Page.escapeHtml [STAR; STAR]) with [STAR; STAR].
  change (Page.escapeHtml [BACKTICK]) with [BACKTICK].
  split.
  - rewrite (replaceGroup_one_span STAR [STAR]);
      try (apply escapeHtml_keeps_out; assumption);
      try (now apply escapeHtml_nonempty);
      try (now apply escapeHtml_no_line_terminator).
    apply replaceGroup_absent.
    repeat apply not_In_app;
      try (apply escapeHtml_keeps_out; assumption);
      apply Tags; simpl; tauto.
  - rewrite (replaceGroup_absent STAR [STAR]).
    + apply (replaceGroup_one_span BACKTICK []);
        try (apply escapeHtml_keeps_out; assumption);
        try (now apply escapeHtml_nonempty);
        try (now apply escapeHtml_no_line_terminator).
    + repeat apply not_In_app;
        try (apply escapeHtml_keeps_out; assumption);
        vm_compute; intuition discriminate.
Qed.

Lemma X11_witness :
  inlineMarkup (Page.escapeHtml (lit "a <" ++ [STAR; STAR] ++ lit "b & c" ++
                                 [STAR; STAR] ++ lit "> d"))
    = Page.escapeHtml (lit "a <") ++ strongOpen ++
      Page.escapeHtml (lit "b & c") ++ strongClose ++
      Page.escapeHtml (lit "> d") /\
  inlineMarkup (Page.escapeHtml (lit "a <" ++ [BACKTICK] ++ lit "b & c" ++
                                 [BACKTICK] ++ lit "> d"))
    = Page.escapeHtml (lit "a <") ++ codeOpen ++
      Page.escapeHtml (lit "b & c") ++ codeClose ++
      Page.escapeHtml (lit "> d").
Proof.
  apply (X11_marked_span_is_wrapped (lit "a <") (lit "b & c") (lit "> d"));
    try (vm_compute; intuition discriminate).
  repeat constructor.
Defined.

Lemma Part001_paragraphs_raw (lines : list str) :
  forall k h,
    In (P k h) (elements (forEach Part001.step 0 lines initState)) ->
    exists line, In line lines /\ h = inlineMarkup line.
Proof.
  apply (forEach_invariant Part001.step
           (fun st => forall k h, In (P k h) (elements st) ->
              exists line, In line lines /\ h = inlineMarkup line)).
  - intros st i line Hin IH k h. unfold Part001.step.
    split_step; simpl; intros H; try (exact (IH k h H));
      apply in_app_or in H as [H|[H|[]]]; try (exact (IH k h H));
      try discriminate.
    inversion H; subst. exists line. split; [exact Hin | reflexivity].
  - intros k h [].
Qed.

(** X10. The copy in part_001 escapes nothing: the HTML of each of its
    paragraphs is the inline markup of a line of the content as written,
    and a line without asterisk and backtick is handed to
    dangerouslySetInnerHTML unchanged, whatever tags it holds. *)
Theorem X10_part001_paragraphs_are_raw :
  forall (content : str) (key : Key) (html : str),
    In (P key html) (Part001.renderContent content) ->
    exists line,
      In line (split LF (trim content)) /\
      html = inlineMarkup line /\
      (~ In STAR line -> ~ In BACKTICK line -> html = line).
Proof.
  intros content key html Hin.
  unfold Part001.renderContent, Part001.renderLines in Hin.
  destruct (Part001_paragraphs_raw _ key html Hin) as [line [Hl ->]].
  exists line. repeat split; [exact Hl|].
  apply inlineMarkup_without_markers.
Qed.

Lemma X10_witness :
  exists line,
    In line (split LF (trim (lit "<img src=x onerror=alert(1)>"))) /\
    lit "<img src=x onerror=alert(1)>" = inlineMarkup line /\
    (~ In STAR line -> ~ In BACKTICK line ->
     lit "<img src=x onerror=alert(1)>" = line).
Proof.
  apply (X10_part001_paragraphs_are_raw
           (lit "<img src=x onerror=alert(1)>") (KeyIndex 0)).
  vm_compute. left. reflexivity.
Defined.

(* ===================================================================== *)
(** ** blog-data.ts: the order of strings and the tag list                *)
(* ===================================================================== *)

Lemma str_ltb_irrefl (a : str) : str_ltb a a = false.
Proof.
  induction a as [|x a IH]; [reflexivity|]. simpl.
  rewrite N.ltb_irrefl, N.eqb_refl, IH. reflexivity.
Qed.

Lemma str_ltb_trans (a b c : str) :
  str_ltb a b = true -> str_ltb b c = true -> str_ltb a c = true.
Proof.
  revert b c; induction a as [|x a IH]; intros [|y b] [|z c]; simpl;
    try discriminate; try reflexivity.
  rewrite !orb_true_iff, !andb_true_iff, !N.ltb_lt, !N.eqb_eq.
  intros [H1|[H1 H2]] [H3|[H3 H4]].
  - left. lia.
  - left. lia.
  - left. lia.
  - right. split; [congruence | now apply (IH b c)].
Qed.

Lemma str_ltb_trichotomy (a b : str) :
  str_ltb a b = true \/ a = b \/ str_ltb b a = true.
Proof.
  revert b; induction a as [|x a IH]; intros [|y b]; simpl; auto.
  destruct (N.lt_trichotomy x y) as [H|[H|H]].
  - left. apply orb_true_iff. left. now apply N.ltb_lt.
  - subst y. rewrite N.ltb_irrefl, N.eqb_refl. simpl.
    destruct (IH b) as [H|[H|H]]; auto. right. left. congruence.
  - right. right. apply orb_true_iff. left. now apply N.ltb_lt.
Qed.

Lemma inOrder_defaultCompare (a b : str) :
  inOrder defaultCompare a b <-> a = b \/ str_ltb a b = true.
Proof.
  unfold inOrder, sortCompare, defaultCompare.
  destruct (str_ltb a b) eqn:E1.
  - split; [auto | intros _; lia].
  - destruct (str_ltb b a) eqn:E2.
    + split; [lia|]. intros [-> |H]; [|discriminate].
      rewrite str_ltb_irrefl in E2. discriminate.
    + split; [|intros _; lia]. intros _.
      destruct (str_ltb_trichotomy a b) as [H|[H|H]]; auto; congruence.
Qed.

Lemma defaultCompare_total (a b : str) :
  ~ inOrder defaultCompare a b -> inOrder defaultCompare b a.
Proof.
  rewrite !inOrder_defaultCompare. intros H.
  destruct (str_ltb_trichotomy a b) as [H'|[H'|H']];
    [exfalso; apply H; auto | auto | auto].
Qed.

Lemma existsb_str_eqb (v : str) (set : list str) :
  existsb (str_eqb v) set = true <-> In v set.
Proof.
  rewrite existsb_exists. split.
  - intros [x [Hx E]]. apply str_eqb_eq in E. now subst.
  - intros H. exists v. split; [exact H | apply str_eqb_refl].
Qed.

Lemma setAdd_In (set : list str) (v x : str) :
  In x (setAdd set v) <-> In x set \/ x = v.
Proof.
  unfold setAdd. destruct (existsb (str_eqb v) set) eqn:E.
  - apply existsb_str_eqb in E. split; [auto|]. intros [H| ->]; assumption.
  - rewrite in_app_iff. simpl. intuition auto.
Qed.

Lemma setAdd_NoDup (set : list str) (v : str) :
  NoDup set -> NoDup (setAdd set v).
Proof.
  intros H. unfold setAdd. destruct (existsb (str_eqb v) set) eqn:E; [exact H|].
  apply NoDup_snoc; [exact H|]. intros Hin.
  apply existsb_str_eqb in Hin. congruence.
Qed.

Lemma fold_setAdd (values : list str) :
  forall set,
    (NoDup set -> NoDup (fold_left setAdd values set)) /\
    (forall x, In x (fold_left setAdd values set) <-> In x set \/ In x values).
Proof.
  induction values as [|v values IH]; intros set; simpl.
  - split; [auto|]. intros x. tauto.
  - destruct (IH (setAdd set v)) as [Hnd Hin]. split.
    + intros H. apply Hnd, setAdd_NoDup, H.
    + intros x. rewrite Hin, setAdd_In. split; intros H; intuition auto.
Qed.

(** The set built by the two nested forEach of getAllTags. *)
Lemma collect_tags (posts : list BlogPost) :
  forall set,
    (NoDup set ->
     NoDup (fold_left (fun set post => fold_left setAdd (tags post) set)
                      posts set)) /\
    (forall x,
        In x (fold_left (fun set post => fold_left setAdd (tags post) set)
                        posts set) <->
        In x set \/ exists post, In post posts /\ In x (tags post)).
Proof.
  induction posts as [|p posts IH]; intros set; simpl.
  - split; [auto|]. intros x. split; [auto|].
    intros [H|[post [[] _]]]. exact H.
  - destruct (IH (fold_left setAdd (tags p) set)) as [Hnd Hin].
    destruct (fold_setAdd (tags p) set) as [Hnd' Hin']. split.
    + intros H. apply Hnd, Hnd', H.
    + intros x. rewrite Hin, Hin'. split.
      * intros [[H|H]|[post [Hp Hx]]]; eauto.
      * intros [H|[post [[<-|Hp] Hx]]]; eauto.
Qed.

Lemma NoDup_adjacent_differ {A : Type} (l : list A) (i : nat) (a b : A) :
  NoDup l -> nth_error l i = Some a -> nth_error l (S i) = Some b -> a <> b.
Proof.
  intros Hnd Ha Hb E. subst b.
  assert (Hi : i < length l) by (apply nth_error_Some; congruence).
  pose proof (proj1 (NoDup_nth_error l) Hnd i (S i) Hi) as H.
  rewrite Ha, Hb in H. specialize (H eq_refl). lia.
Qed.

Lemma getAllTags_members (store : Store) (tag : str) :
  In tag (fst (getAllTags store)) <->
  exists post, In post store /\ In tag (tags post).
Proof.
  unfold getAllTags. cbn [fst].
  destruct (collect_tags store []) as [_ Hin].
  pose proof (sort_Permutation defaultCompare
                (fold_left (fun set post => fold_left setAdd (tags post) set)
                           store [])) as Hperm.
  split.
  - intros H. apply (Permutation_in _ (Permutation_sym Hperm)) in H.
    apply Hin in H as [[]|H]. exact H.
  - intros H. apply (Permutation_in _ Hperm). apply Hin. now right.
Qed.

Lemma getAllTags_NoDup (store : Store) : NoDup (fst (getAllTags store)).
Proof.
  unfold getAllTags. cbn [fst].
  destruct (collect_tags store []) as [Hnd _].
  apply (Permutation_NoDup (sort_Permutation defaultCompare _)), Hnd.
  constructor.
Qed.

Lemma getAllTags_ascending (store : Store) (i : nat) (a b : str) :
  nth_error (fst (getAllTags store)) i = Some a ->
  nth_error (fst (getAllTags store)) (S i) = Some b ->
  str_ltb a b = true.
Proof.
  intros Ha Hb. pose proof (getAllTags_NoDup store) as Hnd.
  unfold getAllTags in *. cbn [fst] in *.
  assert (Hs : Sorted (inOrder defaultCompare)
                 (sort defaultCompare
                    (fold_left
                       (fun set post => fold_left setAdd (tags post) set)
                       store []))).
  { apply sort_Sorted. intros x y _ _. apply defaultCompare_total. }
  pose proof (Sorted_adjacent _ _ Hs i a b Ha Hb) as Hab.
  apply inOrder_defaultCompare in Hab as [E|H]; [|exact H].
  exfalso. exact (NoDup_adjacent_differ _ i a b Hnd Ha Hb E).
Qed.

(** X15. getAllTags returns every tag of every post and nothing else, each
    once, in strictly ascending order of code units. *)
Theorem X15_getAllTags_sorted_without_duplicates :
  forall store : Store,
    (forall tag, In tag (fst (getAllTags store)) <->
                 exists post, In post store /\ In tag (tags post)) /\
    NoDup (fst (getAllTags store)) /\
    (forall i a b,
        nth_error (fst (getAllTags store)) i = Some a ->
        nth_error (fst (getAllTags store)) (S i) = Some b ->
        str_ltb a b = true).
Proof.
  intros store. split; [|split].
  - intros tag. apply getAllTags_members.
  - apply getAllTags_NoDup.
  - intros i a b. apply getAllTags_ascending.
Qed.


Lemma adjacent_StronglySorted {A : Type} (R : A -> A -> Prop) (l : list A) :
  (forall a b c, R a b -> R b c -> R a c) ->
  (forall i a b, nth_error l i = Some a -> nth_error l (S i) = Some b ->
                 R a b) ->
  StronglySorted R l.
Proof.
  intros Htrans. induction l as [|x l IH]; intros Hadj; [constructor|].
  assert (Hl : StronglySorted R l).
  { apply IH. intros i a b Ha Hb. exact (Hadj (S i) a b Ha Hb). }
  constructor; [exact Hl|].
  destruct l as [|y l]; [constructor|].
  assert (Hxy : R x y) by (apply (Hadj 0); reflexivity).
  constructor; [exact Hxy|].
  inversion Hl as [|? ? _ Hy]; subst.
  apply Forall_forall. intros z Hz. rewrite Forall_forall in Hy.
  exact (Htrans x y z Hxy (Hy z Hz)).
Qed.

(** Two strictly ascending lists with the same elements are the same. *)
Lemma strictly_sorted_unique (l1 l2 : list str) :
  StronglySorted (fun a b => str_ltb a b = true) l1 ->
  StronglySorted (fun a b => str_ltb a b = true) l2 ->
  (forall x, In x l1 <-> In x l2) -> l1 = l2.
Proof.
  intros H1; revert l2; induction H1 as [|a l1 Hs1 IH Ha];
    intros l2 H2 Hin.
  - destruct l2 as [|b l2]; [reflexivity|].
    exfalso. apply (proj2 (Hin b)). now left.
  - destruct H2 as [|b l2 Hs2 Hb].
    + exfalso. apply (proj1 (Hin a)). now left.
    + rewrite Forall_forall in Ha, Hb.
      assert (E : a = b).
      { destruct (proj1 (Hin a) (or_introl eq_refl)) as [E|Ha2]; [auto|].
        destruct (proj2 (Hin b) (or_introl eq_refl)) as [E|Hb1]; [auto|].
        pose proof (str_ltb_trans a b a (Ha b Hb1) (Hb a Ha2)) as C.
        rewrite str_ltb_irrefl in C. discriminate. }
      subst b. f_equal. apply IH; [exact Hs2|].
      intros x. split; intros Hx.
      * destruct (proj1 (Hin x) (or_intror Hx)) as [E|H]; [|exact H].
        subst x. pose proof (Ha a Hx) as C.
        rewrite str_ltb_irrefl in C. discriminate.
      * destruct (proj2 (Hin x) (or_intror Hx)) as [E|H]; [|exact H].
        subst x. pose proof (Hb a Hx) as C.
        rewrite str_ltb_irrefl in C. discriminate.
Qed.

Lemma getAllTags_Permutation (s1 s2 : Store) :
  Permutation s1 s2 -> fst (getAllTags s1) = fst (getAllTags s2).
Proof.
  intros Hperm.
  apply strictly_sorted_unique.
  - apply adjacent_StronglySorted;
      [apply str_ltb_trans | apply getAllTags_ascending].
  - apply adjacent_StronglySorted;
      [apply str_ltb_trans | apply getAllTags_ascending].
  - intros x. rewrite !getAllTags_members.
    split; intros [post [Hp Hx]]; exists post;
      (split; [|exact Hx]).
    + exact (Permutation_in _ Hperm Hp).
    + exact (Permutation_in _ (Permutation_sym Hperm) Hp).
Qed.

(** X16. The tag list does not depend on the order of the array: getAllTags
    returns the same list on any rearrangement of blogPosts, so the sort that
    getAllPosts performs on the array cannot change it, and the topics of
    the blog index, computed after that sort, are the tags of the array as
    written. *)
Theorem X16_tag_list_ignores_array_order :
  forall store : Store,
    (forall store', Permutation store store' ->
                    fst (getAllTags store') = fst (getAllTags store)) /\
    fst (getAllTags (snd (getAllPosts store))) = fst (getAllTags store) /\
    topics (fst (BlogPage store)) = fst (getAllTags store).
Proof.
  intros store.
  assert (H : fst (getAllTags (sort byDateDesc store))
              = fst (getAllTags store)).
  { symmetry. apply getAllTags_Permutation, sort_Permutation. }
  split; [|split].
  - intros store' Hp. symmetry. now apply getAllTags_Permutation.
  - exact H.
  - unfold BlogPage, getAllPosts.
    destruct (getAllTags (sort byDateDesc store)) as [tags st] eqn:E.
    cbn [fst topics] in *. exact H.
Qed.

(* ===================================================================== *)
(** ** blog-data.ts: more on the sort and the lookups                     *)
(* ===================================================================== *)

Lemma sort_valid_Sorted (store : Store) :
  Forall (fun p => getTime (date p) <> None) store ->
  Sorted (inOrder byDateDesc) (sort byDateDesc store).
Proof.
  intros Hvalid. rewrite Forall_forall in Hvalid.
  apply sort_Sorted. intros x y Hx Hy Hn.
  destruct (getTime (date x)) as [tx|] eqn:Ex;
    [|exfalso; exact (Hvalid x Hx Ex)].
  destruct (getTime (date y)) as [ty|] eqn:Ey;
    [|exfalso; exact (Hvalid y Hy Ey)].
  unfold inOrder in *.
  rewrite (byDateDesc_timed x y tx ty Ex Ey) in Hn.
  rewrite (byDateDesc_timed y x ty tx Ey Ex). lia.
Qed.

(** X17. With dates that are time values, a second call of getAllPosts
    returns the list the first call returned and leaves the array as the
    first call left it. *)
Theorem X17_getAllPosts_twice :
  forall store : Store,
    Forall (fun p => getTime (date p) <> None) store ->
    getAllPosts (snd (getAllPosts store)) = getAllPosts store.
Proof.
  intros store Hvalid. unfold getAllPosts. cbn [snd].
  now rewrite (sort_of_Sorted byDateDesc _ (sort_valid_Sorted store Hvalid)).
Qed.

Lemma X17_witness :
  getAllPosts
    (snd (getAllPosts
            [ mkPost (lit "a") [] [] [] [] (lit "2024-01-01") [] [] None [];
              mkPost (lit "b") [] [] [] [] (lit "2024-06-01") [] [] None [];
              mkPost (lit "c") [] [] [] [] (lit "2023-12-31") [] [] None [] ]))
  = getAllPosts
      [ mkPost (lit "a") [] [] [] [] (lit "2024-01-01") [] [] None [];
        mkPost (lit "b") [] [] [] [] (lit "2024-06-01") [] [] None [];
        mkPost (lit "c") [] [] [] [] (lit "2023-12-31") [] [] None [] ].
Proof.
  apply X17_getAllPosts_twice.
  repeat (apply Forall_cons; [vm_compute; discriminate|]). apply Forall_nil.
Defined.

(** Insertion puts [x] in front of the first element it need not follow;
    the elements it passes are dated differently. *)
Lemma insertSorted_datedAt (t : Z) (x : BlogPost) (l : list BlogPost) :
  filter (datedAt t) (insertSorted byDateDesc x l)
  = filter (datedAt t) (x :: l).
Proof.
  induction l as [|y l IH]; [reflexivity|].
  cbn [insertSorted].
  destruct (sortCompare byDateDesc x y <=? 0)%Z eqn:E; [reflexivity|].
  cbn [filter] in *. rewrite IH.
  destruct (datedAt t x) eqn:Dx; [|reflexivity].
  destruct (datedAt t y) eqn:Dy; [|reflexivity].
  exfalso. unfold datedAt in Dx, Dy.
  destruct (getTime (date x)) as [tx|] eqn:Ex; [|discriminate].
  destruct (getTime (date y)) as [ty|] eqn:Ey; [|discriminate].
  apply Z.eqb_eq in Dx, Dy. subst.
  rewrite (byDateDesc_timed x y t t Ex Ey) in E.
  apply Z.leb_gt in E. lia.
Qed.

(** X18. With dates that are time values the sort of getAllPosts is
    stable: for every time value, the posts dated at it come out in the
    order they have in the array. *)
Theorem X18_getAllPosts_keeps_order_of_equal_dates :
  forall (store : Store) (t : Z),
    Forall (fun p => getTime (date p) <> None) store ->
    filter (datedAt t) (fst (getAllPosts store)) = filter (datedAt t) store.
Proof.
  intros store t _. unfold getAllPosts. cbn [fst].
  induction store as [|x store IH]; [reflexivity|].
  cbn [sort]. rewrite insertSorted_datedAt. cbn [filter]. now rewrite IH.
Qed.

Lemma X18_witness :
  map slug
      (filter (datedAt 1704067200000)
         (fst (getAllPosts
            [ mkPost (lit "a") [] [] [] [] (lit "2024-01-01") [] [] None [];
              mkPost (lit "b") [] [] [] [] (lit "2024-06-01") [] [] None [];
              mkPost (lit "c") [] [] [] [] (lit "2024-01-01") [] [] None [] ])))
  = [lit "a"; lit "c"].
Proof.
  rewrite (X18_getAllPosts_keeps_order_of_equal_dates
             [ mkPost (lit "a") [] [] [] [] (lit "2024-01-01") [] [] None [];
               mkPost (lit "b") [] [] [] [] (lit "2024-06-01") [] [] None [];
               mkPost (lit "c") [] [] [] [] (lit "2024-01-01") [] [] None [] ]
             1704067200000).
  - reflexivity.
  - repeat (apply Forall_cons; [vm_compute; discriminate|]). apply Forall_nil.
Defined.

(** X19. Every tag that getAllTags lists selects at least one post:
    getPostsByTag never comes back empty on it, whatever the case mapping. *)
Theorem X19_listed_tags_select_posts :
  forall (toLowerCase : str -> str) (store : Store) (tag : str),
    In tag (fst (getAllTags store)) ->
    exists post,
      In post (fst (getPostsByTag toLowerCase store tag)) /\
      In tag (tags post).
Proof.
  intros toLowerCase store tag Hin.
  apply getAllTags_members in Hin as [post [Hp Ht]].
  exists post. split; [|exact Ht].
  unfold getPostsByTag. cbn [fst]. apply filter_In. split; [exact Hp|].
  apply existsb_exists. exists tag. split; [exact Ht | apply str_eqb_refl].
Qed.

Lemma X19_witness :
  exists post,
    In post (fst (getPostsByTag asciiLowerCase (blogPosts (fun _ => []))
                                (lit "Hooks"))) /\
    In (lit "Hooks") (tags post).
Proof.
  apply (X19_listed_tags_select_posts asciiLowerCase
           (blogPosts (fun _ => [])) (lit "Hooks")).
  vm_compute. do 6 right. left. reflexivity.
Defined.

Lemma NoDup_map_injective {A B : Type} (f : A -> B) (l : list A) (a b : A) :
  NoDup (map f l) -> In a l -> In b l -> f a = f b -> a = b.
Proof.
  induction l as [|x l IH]; simpl; intros Hnd Ha Hb E; [contradiction|].
  inversion Hnd as [|? ? Hx Hl]; subst.
  destruct Ha as [<-|Ha]; destruct Hb as [<-|Hb]; auto.
  - exfalso. apply Hx. rewrite E. now apply in_map.
  - exfalso. apply Hx. rewrite <- E. now apply in_map.
Qed.

Lemma find_slug_In (store : Store) (s : str) (post : BlogPost) :
  find (fun post => str_eqb (slug post) s) store = Some post ->
  In post store /\ slug post = s.
Proof.
  intros H. apply find_some in H as [Hin E].
  apply str_eqb_eq in E. auto.
Qed.

Lemma find_slug_Permutation (s1 s2 : Store) (s : str) :
  NoDup (map slug s1) -> Permutation s1 s2 ->
  find (fun post => str_eqb (slug post) s) s1
  = find (fun post => str_eqb (slug post) s) s2.
Proof.
  intros Hnd Hperm.
  destruct (find (fun post => str_eqb (slug post) s) s1) as [p|] eqn:E1.
  - apply find_slug_In in E1 as [Hin Hs].
    destruct (find_slug_first s2 s p (Permutation_in _ Hperm Hin) Hs)
      as (q & before & after & Hf & Hq & Hsplit & _).
    rewrite Hf. f_equal.
    apply (NoDup_map_injective slug s1 p q Hnd Hin); [|congruence].
    apply (Permutation_in _ (Permutation_sym Hperm)).
    rewrite Hsplit. apply in_or_app. right. now left.
  - symmetry. apply find_slug_none. intros q Hq Hs.
    pose proof (find_none _ _ E1 q
                  (Permutation_in _ (Permutation_sym Hperm) Hq)) as C.
    cbv beta in C. rewrite Hs, str_eqb_refl in C. discriminate.
Qed.

(** X20. When no two posts share a slug, getPostBySlug finds the same post
    on any rearrangement of the array: the lookup is not affected by the
    sort that getAllPosts performs on blogPosts. *)
Theorem X20_lookup_ignores_array_order :
  forall (store : Store) (s : str),
    NoDup (map slug store) ->
    (forall store', Permutation store store' ->
       fst (getPostBySlug store' s) = fst (getPostBySlug store s)) /\
    fst (getPostBySlug (snd (getAllPosts store)) s)
      = fst (getPostBySlug store s).
Proof.
  intros store s Hnd. unfold getPostBySlug, getAllPosts. cbn [fst snd].
  split.
  - intros store' Hp. symmetry. now apply find_slug_Permutation.
  - symmetry. apply find_slug_Permutation; [exact Hnd|].
    apply sort_Permutation.
Qed.

Lemma X20_witness :
  fst (getPostBySlug
         (snd (getAllPosts
                 [ mkPost (lit "a") [] [] [] [] (lit "2024-01-01") [] [] None [];
                   mkPost (lit "b") [] [] [] [] (lit "2024-06-01") [] [] None [] ]))
         (lit "a"))
  = fst (getPostBySlug
           [ mkPost (lit "a") [] [] [] [] (lit "2024-01-01") [] [] None [];
             mkPost (lit "b") [] [] [] [] (lit "2024-06-01") [] [] None [] ]
           (lit "a")).
Proof.
  apply (X20_lookup_ignores_array_order
           [ mkPost (lit "a") [] [] [] [] (lit "2024-01-01") [] [] None [];
             mkPost (lit "b") [] [] [] [] (lit "2024-06-01") [] [] None [] ]
           (lit "a")).
  repeat constructor; simpl; intuition discriminate.
Defined.

(* ===================================================================== *)
(** ** page.tsx: static params and related posts                          *)
(* ===================================================================== *)

(** X13. generateStaticParams returns one param per post of the array:
    the slugs of the posts in the order getAllPosts returns them, which are
    the slugs of blogPosts rearranged. Every slug it returns is one that the
    page then finds: on the array as the call leaves it, getPostBySlug
    returns a post with that slug and BlogPostPage renders it instead of
    calling notFound(). *)
Theorem X13_static_params_resolve :
  forall store : Store,
    map param_slug (fst (generateStaticParams store))
      = map slug (fst (getAllPosts store)) /\
    Permutation (map slug store)
                (map param_slug (fst (generateStaticParams store))) /\
    length (fst (generateStaticParams store)) = length store /\
    forall param,
      In param (fst (generateStaticParams store)) ->
      exists post related,
        fst (getPostBySlug (snd (generateStaticParams store))
                           (param_slug param)) = Some post /\
        In post store /\
        slug post = param_slug param /\
        fst (Page.BlogPostPage (snd (generateStaticParams store))
                               (param_slug param))
          = Page.Rendered post (Page.renderContent (content post)) related.
Proof.
  intros store. unfold generateStaticParams, getAllPosts. cbn [fst snd].
  pose proof (sort_Permutation byDateDesc store) as Hperm.
  assert (Hslugs : map param_slug
                     (map (fun post => mkStaticParam (slug post))
                          (sort byDateDesc store))
                   = map slug (sort byDateDesc store)).
  { rewrite map_map. apply map_ext. intros post. reflexivity. }
  split; [exact Hslugs|]. split; [|split].
  - rewrite Hslugs. now apply Permutation_map.
  - rewrite length_map. symmetry. now apply Permutation_length.
  - intros param Hin. apply in_map_iff in Hin as [p [<- Hp]].
    cbn [param_slug].
    destruct (find_slug_first (sort byDateDesc store) (slug p) p Hp eq_refl)
      as (found & before & after & Hf & Hs & Hsplit & _).
    exists found. eexists.
    unfold Page.BlogPostPage, getPostBySlug, getAllPosts. cbn [fst snd].
    rewrite Hf. repeat split; [|exact Hs].
    apply (Permutation_in _ (Permutation_sym Hperm)).
    rewrite Hsplit. apply in_or_app. right. now left.
Qed.

Lemma In_firstn_In {A : Type} (n : nat) (l : list A) (x : A) :
  In x (firstn n l) -> In x l.
Proof.
  intros H. rewrite <- (firstn_skipn n l). apply in_or_app. now left.
Qed.

Lemma filter_all {A : Type} (f : A -> bool) (l : list A) :
  (forall x, In x l -> f x = true) -> filter f l = l.
Proof.
  induction l as [|x l IH]; simpl; intros H; [reflexivity|].
  rewrite (H x (or_introl eq_refl)). f_equal. apply IH.
  intros y Hy. apply H. now right.
Qed.

(** With distinct slugs, leaving out the posts with one slug leaves out at
    most one post. *)
Lemma filter_other_slugs (l : list BlogPost) (s : str) :
  NoDup (map slug l) ->
  length l <= S (length (filter (fun p => negb (str_eqb (slug p) s)) l)).
Proof.
  induction l as [|x l IH]; simpl; intros Hnd; [lia|].
  inversion Hnd as [|? ? Hx Hl]; subst.
  destruct (str_eqb (slug x) s) eqn:E; simpl.
  - apply str_eqb_eq in E. rewrite filter_all; [lia|].
    intros y Hy. apply negb_true_iff, str_eqb_neq. intros Hs.
    apply Hx. rewrite E, <- Hs. now apply in_map.
  - specialize (IH Hl). lia.
Qed.

(** X14. Under an article BlogPostPage lists at most two more posts: posts
    of the array, never one with the slug of the post shown; with distinct
    slugs and at least three posts it lists exactly two. *)
Theorem X14_related_posts :
  forall (store : Store) (s : str) (post : BlogPost)
         (article : list Element) (related : list BlogPost),
    fst (Page.BlogPostPage store s) = Page.Rendered post article related ->
    length related <= 2 /\
    (forall r, In r related -> In r store /\ slug r <> slug post) /\
    (NoDup (map slug store) -> 3 <= length store -> length related = 2).
Proof.
  intros store s post article related.
  unfold Page.BlogPostPage, getPostBySlug, getAllPosts. cbn [fst snd].
  destruct (find (fun post => str_eqb (slug post) s) store) as [p|];
    [|discriminate].
  cbn [fst].
  remember (firstn 2 (filter (fun p0 => negb (str_eqb (slug p0) (slug p)))
                             (sort byDateDesc store))) as rel eqn:Erel.
  intros H. injection H as Hp Ha Hr. subst post article related rel.
  pose proof (sort_Permutation byDateDesc store) as Hperm.
  split; [|split].
  - rewrite length_firstn. lia.
  - intros r Hr. apply In_firstn_In in Hr. apply filter_In in Hr as [Hr E].
    split.
    + exact (Permutation_in _ (Permutation_sym Hperm) Hr).
    + apply negb_true_iff, str_eqb_neq in E. exact E.
  - intros Hnd Hlen. rewrite length_firstn.
    assert (Hnd' : NoDup (map slug (sort byDateDesc store))).
    { apply (Permutation_NoDup (Permutation_map slug Hperm) Hnd). }
    pose proof (filter_other_slugs _ (slug p) Hnd') as Hf.
    rewrite <- (Permutation_length Hperm) in Hf. lia.
Qed.

Lemma X14_witness :
  length
    (match fst (Page.BlogPostPage (blogPosts (fun _ => []))
                                  (lit "nextjs-14-app-router-complete-guide"))
     with
     | Page.Rendered _ _ related => related
     | Page.NotFound => []
     end) = 2.
Proof.
  destruct (fst (Page.BlogPostPage (blogPosts (fun _ => []))
                                   (lit "nextjs-14-app-router-complete-guide")))
    as [|post article related] eqn:E; [vm_compute in E; discriminate|].
  apply (X14_related_posts _ _ _ _ _ E).
  - repeat constructor; simpl; intuition discriminate.
  - simpl. lia.
Defined.
(* ===================================================================== *)
(** ** structured-data.ts                                                 *)
(* ===================================================================== *)

Import StructuredData.

Lemma mapFrom_length {A B : Type} (f : A -> nat -> B) (l : list A) :
  forall k, length (mapFrom f k l) = length l.
Proof. induction l as [|x l IH]; intros k; simpl; [|rewrite IH]; reflexivity. Qed.

Lemma mapFrom_nth_error {A B : Type} (f : A -> nat -> B) (l : list A) :
  forall k i x, nth_error l i = Some x ->
                nth_error (mapFrom f k l) i = Some (f x (k + i)).
Proof.
  induction l as [|y l IH]; intros k i x H; [destruct i; discriminate|].
  destruct i as [|i]; simpl in *.
  - inversion H; subst. now rewrite Nat.add_0_r.
  - rewrite (IH (S k) i x H). f_equal. f_equal. lia.
Qed.

Lemma callsOfGenerateSchemaScript_constant (n : nat) (m : Loaded) :
  callsOfGenerateSchemaScript n m =
  repeat (stringify (loadedCombinedSchema m)) n.
Proof. induction n as [|n IH]; simpl; [|rewrite IH]; reflexivity. Qed.

(** C7. The builders map the configuration, whatever it holds.
    projectsListSchema: numberOfItems is the number of projects, and
    itemListElement has one ListItem per project, in order, the one at index
    [i] with position [i + 1] and the project's name, description and url.
    faqSchema: mainEntity has one Question per entry of faqData, in order,
    with the entry's question and answer. generateSchemaScript returns the
    serialization of combinedSchema as built when the module was loaded,
    the same string at every call. *)
Theorem C7_builders_map_the_configuration :
  forall (siteConfig : SiteConfig) (projectsData : list Project)
         (faqData : list Faq) (today : str),
    get "numberOfItems" (projectsListSchema siteConfig projectsData)
      = Some (JNumber (Z.of_nat (length projectsData))) /\
    (exists items,
        get "itemListElement" (projectsListSchema siteConfig projectsData)
          = Some (JArray items) /\
        length items = length projectsData /\
        forall i project,
          nth_error projectsData i = Some project ->
          exists entry work,
            nth_error items i = Some entry /\
            get "@type" entry = Some (JString (lit "ListItem")) /\
            get "position" entry = Some (JNumber (Z.of_nat i + 1)) /\
            get "item" entry = Some work /\
            get "name" work = Some (JString (p_name project)) /\
            get "description" work = Some (JString (p_description project)) /\
            get "url" work = Some (JString (p_url project))) /\
    (exists questions,
        get "mainEntity" (faqSchema siteConfig faqData)
          = Some (JArray questions) /\
        length questions = length faqData /\
        forall i faq,
          nth_error faqData i = Some faq ->
          exists entry accepted,
            nth_error questions i = Some entry /\
            get "@type" entry = Some (JString (lit "Question")) /\
            get "name" entry = Some (JString (question faq)) /\
            get "acceptedAnswer" entry = Some accepted /\
            get "text" accepted = Some (JString (answer faq))) /\
    (forall n out,
        In out (callsOfGenerateSchemaScript n
                  (load siteConfig projectsData faqData today)) ->
        out = stringify
                (JArray
                   [ personSchema siteConfig;
                     websiteSchema siteConfig;
                     webPageSchema siteConfig today;
                     profilePageSchema siteConfig today;
                     projectsListSchema siteConfig projectsData;
                     faqSchema siteConfig faqData;
                     breadcrumbSchema siteConfig;
                     serviceSchema siteConfig ])) /\
    (forall n, length (callsOfGenerateSchemaScript n
                         (load siteConfig projectsData faqData today)) = n).
Proof.
  intros siteConfig projectsData faqData today.
  split; [reflexivity|]. split; [|split; [|split]].
  - exists (mapIndexed (projectListItem siteConfig) projectsData).
    split; [reflexivity|]. split; [apply mapFrom_length|].
    intros i project Hi. eexists. eexists.
    split; [exact (mapFrom_nth_error _ _ 0 i project Hi)|].
    repeat split.
  - exists (map faqQuestion faqData).
    split; [reflexivity|]. split; [apply length_map|].
    intros i faq Hi. eexists. eexists.
    split; [exact (map_nth_error faqQuestion i faqData Hi)|].
    repeat split.
  - intros n out Hin.
    rewrite callsOfGenerateSchemaScript_constant in Hin.
    apply repeat_spec in Hin. exact Hin.
  - intros n. rewrite callsOfGenerateSchemaScript_constant.
    apply repeat_length.
Qed.

(** The item list built from the projects of seo-config. *)
Example projectsListSchema_of_seo_config :
  get "numberOfItems"
      (projectsListSchema SeoConfig.siteConfig SeoConfig.projectsData)
    = Some (JNumber 3) /\
  (exists items,
      get "itemListElement"
          (projectsListSchema SeoConfig.siteConfig SeoConfig.projectsData)
        = Some (JArray items) /\
      map (fun entry =>
             (get "position" entry,
              match get "item" entry with
              | Some work => get "name" work
              | None => None
              end)) items
      = [ (Some (JNumber 1), Some (JString (lit "Coinhub")));
          (Some (JNumber 2), Some (JString (lit "theEngineerGuy")));
          (Some (JNumber 3), Some (JString (lit "Apna Dukan"))) ]).
Proof. split; [reflexivity|]. eexists. split; reflexivity. Qed.

Lemma C7_witness :
  get "numberOfItems"
      (projectsListSchema SeoConfig.siteConfig SeoConfig.projectsData)
    = Some (JNumber (Z.of_nat (length SeoConfig.projectsData))) /\
  (exists questions,
      get "mainEntity" (faqSchema SeoConfig.siteConfig SeoConfig.faqData)
        = Some (JArray questions) /\
      length questions = length SeoConfig.faqData) /\
  (forall out,
      In out (callsOfGenerateSchemaScript 3
                (load SeoConfig.siteConfig SeoConfig.projectsData
                      SeoConfig.faqData (lit "2026-11-01"))) ->
      out = stringify
              (combinedSchema SeoConfig.siteConfig SeoConfig.projectsData
                              SeoConfig.faqData (lit "2026-11-01"))).
Proof.
  destruct (C7_builders_map_the_configuration
              SeoConfig.siteConfig SeoConfig.projectsData SeoConfig.faqData
              (lit "2026-11-01"))
    as (Hn & _ & (questions & Hq & Hlen & _) & Hcalls & _).
  split; [exact Hn|]. split.
  - exists questions. split; [exact Hq | exact Hlen].
  - intros out Hin. exact (Hcalls 3 out Hin).
Defined.

(* ===================================================================== *)
(** ** structured-data.ts: what the serialization holds                   *)
(* ===================================================================== *)

Lemma JSON_nested_ind (Q : JSON -> Prop) :
  (forall s, Q (JString s)) ->
  (forall n, Q (JNumber n)) ->
  (forall items, Forall Q items -> Q (JArray items)) ->
  (forall fields, Forall (fun kv => Q (snd kv)) fields -> Q (JObject fields)) ->
  forall v, Q v.
Proof.
  intros Hs Hn Ha Ho. fix IH 1. intros [s|n|items|fields].
  - apply Hs.
  - apply Hn.
  - apply Ha. revert items. fix IHl 1. intros [|x xs].
    + constructor.
    + constructor; [apply IH | apply IHl].
  - apply Ho. revert fields. fix IHl 1. intros [|[k x] xs].
    + constructor.
    + constructor; [apply IH | apply IHl].
Qed.

Lemma In_join (c : char) (sep : str) (l : list str) :
  In c (join sep l) -> In c sep \/ exists x, In x l /\ In c x.
Proof.
  induction l as [|x l IH]; [intros []|].
  destruct l as [|y l].
  - simpl. intros H. right. exists x. auto.
  - change (join sep (x :: y :: l)) with (x ++ sep ++ join sep (y :: l)).
    intros H. apply in_app_or in H as [H|H].
    + right. exists x. split; [now left | exact H].
    + apply in_app_or in H as [H|H]; [now left|].
      destruct (IH H) as [H'|[z [Hz Hc]]]; [now left|].
      right. exists z. split; [now right | exact Hc].
Qed.

Lemma string_of_uint_chars (d : Decimal.uint) :
  Forall (fun c => (48 <= c <= 57)%N)
         (lit (DecimalString.NilEmpty.string_of_uint d)).
Proof.
  unfold lit. induction d; simpl; constructor; (lia || assumption).
Qed.

Lemma numberToString_chars (n : Z) :
  Forall (fun c => c = 45%N \/ (48 <= c <= 57)%N) (numberToString n).
Proof.
  unfold numberToString, DecimalString.NilZero.string_of_int.
  assert (U : forall d,
             Forall (fun c => c = 45%N \/ (48 <= c <= 57)%N)
                    (lit (DecimalString.NilZero.string_of_uint d))).
  { intros d. eapply Forall_impl; [intros c Hc; right; exact Hc|].
    unfold DecimalString.NilZero.string_of_uint.
    destruct d; [|apply string_of_uint_chars..].
    unfold lit. simpl. constructor; [lia | constructor]. }
  destruct (Z.to_int n) as [d|d]; [apply U|].
  change (lit (String "-" (DecimalString.NilZero.string_of_uint d)))
    with (45%N :: lit (DecimalString.NilZero.string_of_uint d)).
  constructor; [now left | apply U].
Qed.

Lemma hexDigit_range (n : N) :
  (48 <= hexDigit n <= 57)%N \/ (97 <= hexDigit n)%N.
Proof.
  unfold hexDigit. destruct (N.ltb_spec n 10); [left|right]; lia.
Qed.

Lemma hexDigit_not_LT (n : N) : hexDigit n <> LT.
Proof.
  intros H. pose proof (hexDigit_range n) as R. rewrite H in R.
  unfold LT in R. lia.
Qed.

Lemma unicodeEscape_LT (c : char) : ~ In LT (unicodeEscape c).
Proof.
  unfold unicodeEscape. intros H. apply in_app_or in H as [H|H].
  - vm_compute in H. intuition discriminate.
  - simpl in H.
    repeat (destruct H as [H|H]; [exact (hexDigit_not_LT _ H)|]).
    exact H.
Qed.

Lemma quoteUnit_LT (c : char) : In LT (quoteUnit c) -> c = LT.
Proof.
  unfold quoteUnit.
  destruct (N.eqb c 8); [intros H; vm_compute in H; intuition discriminate|].
  destruct (N.eqb c 9); [intros H; vm_compute in H; intuition discriminate|].
  destruct (N.eqb c 10); [intros H; vm_compute in H; intuition discriminate|].
  destruct (N.eqb c 12); [intros H; vm_compute in H; intuition discriminate|].
  destruct (N.eqb c 13); [intros H; vm_compute in H; intuition discriminate|].
  destruct (N.eqb c 34); [intros H; vm_compute in H; intuition discriminate|].
  destruct (N.eqb c 92); [intros H; vm_compute in H; intuition discriminate|].
  destruct (N.ltb c 32 || isLeadSurrogate c || isTrailSurrogate c).
  - intros H. exfalso. exact (unicodeEscape_LT c H).
  - intros [H|[]]. exact H.
Qed.

Lemma quoteUnits_LT_bounded (n : nat) :
  forall s, length s <= n -> In LT (quoteUnits s) -> In LT s.
Proof.
  induction n as [|n IH]; intros s Hn.
  - destruct s; [intros [] | simpl in Hn; lia].
  - destruct s as [|c [|d s]].
    + intros [].
    + cbn [quoteUnits]. intros H. apply quoteUnit_LT in H. now left.
    + cbn [quoteUnits].
      destruct (isLeadSurrogate c && isTrailSurrogate d).
      * intros [H|[H|H]]; [now left | right; now left |].
        right. right. apply IH; [simpl in *; lia | exact H].
      * intros H. apply in_app_or in H as [H|H].
        -- apply quoteUnit_LT in H. now left.
        -- right. apply IH; [simpl in *; lia | exact H].
Qed.

Lemma quoteJSONString_LT (s : str) : In LT (quoteJSONString s) -> In LT s.
Proof.
  unfold quoteJSONString. intros H.
  apply in_app_or in H as [[H|[]]|H]; [discriminate|].
  apply in_app_or in H as [H|[H|[]]]; [|discriminate].
  exact (quoteUnits_LT_bounded (length s) s (Nat.le_refl _) H).
Qed.

Lemma stringify_LT (v : JSON) :
  In LT (stringify v) -> exists s, In s (jsonStrings v) /\ In LT s.
Proof.
  induction v as [s|n|items IH|fields IH] using JSON_nested_ind.
  - intros H. exists s. split; [now left | now apply quoteJSONString_LT].
  - intros H. exfalso.
    pose proof (numberToString_chars n) as F. rewrite Forall_forall in F.
    destruct (F LT H) as [E|E]; [discriminate | unfold LT in E; lia].
  - cbn [stringify jsonStrings]. intros H.
    apply in_app_or in H as [[H|[]]|H]; [discriminate|].
    apply in_app_or in H as [H|[H|[]]]; [|discriminate].
    apply In_join in H as [[H|[]]|[x [Hx Hc]]]; [discriminate|].
    apply in_map_iff in Hx as [item [<- Hitem]].
    rewrite Forall_forall in IH.
    destruct (IH item Hitem Hc) as [s [Hs HL]].
    exists s. split; [|exact HL].
    apply in_flat_map. exists item. auto.
  - cbn [stringify jsonStrings]. intros H.
    apply in_app_or in H as [[H|[]]|H]; [discriminate|].
    apply in_app_or in H as [H|[H|[]]]; [|discriminate].
    apply In_join in H as [[H|[]]|[x [Hx Hc]]]; [discriminate|].
    apply in_map_iff in Hx as [[k item] [<- Hitem]].
    apply in_app_or in Hc as [Hc|Hc].
    + exists k. split; [|now apply quoteJSONString_LT].
      apply in_flat_map. exists (k, item). split; [exact Hitem | now left].
    + apply in_app_or in Hc as [[Hc|[]]|Hc]; [discriminate|].
      rewrite Forall_forall in IH.
      destruct (IH (k, item) Hitem Hc) as [s [Hs HL]].
      exists s. split; [|exact HL].
      apply in_flat_map. exists (k, item). split; [exact Hitem | now right].
Qed.

(** X21. generateSchemaScript writes no [<] of its own: when no string
    value and no property name of the combined schema holds one, the text
    it returns holds none, so what layout.tsx puts into the JSON-LD script
    element cannot close that element. The schema built from seo-config is
    such a value. *)
Theorem X21_schema_script_adds_no_angle_bracket :
  forall (siteConfig : SiteConfig) (projectsData : list Project)
         (faqData : list Faq) (today : str),
    Forall (fun s => ~ In LT s)
           (jsonStrings (combinedSchema siteConfig projectsData faqData today)) ->
    ~ In LT (fst (generateSchemaScript
                    (load siteConfig projectsData faqData today))).
Proof.
  intros siteConfig projectsData faqData today H Hin.
  unfold generateSchemaScript, load in Hin. cbn [fst loadedCombinedSchema] in Hin.
  apply stringify_LT in Hin as [s [Hs HL]].
  rewrite Forall_forall in H. exact (H s Hs HL).
Qed.

Lemma strings_without (c : char) (l : list str) :
  forallb (fun s => negb (existsb (N.eqb c) s)) l = true ->
  Forall (fun s => ~ In c s) l.
Proof.
  intros H. apply Forall_forall. intros s Hs Hin.
  rewrite forallb_forall in H. specialize (H s Hs).
  apply negb_true_iff in H.
  assert (existsb (N.eqb c) s = true); [|congruence].
  apply existsb_exists. exists c. split; [exact Hin | apply N.eqb_refl].
Qed.

Lemma X21_witness :
  ~ In LT (fst (generateSchemaScript
                  (load SeoConfig.siteConfig SeoConfig.projectsData
                        SeoConfig.faqData (lit "2026-11-01")))).
Proof.
  apply (X21_schema_script_adds_no_angle_bracket
           SeoConfig.siteConfig SeoConfig.projectsData SeoConfig.faqData
           (lit "2026-11-01")).
  apply strings_without. vm_compute. reflexivity.
Defined.
